(** * OmniBAR Reliability Map: radial layout, visual encoding and view states

    A shallow embedding of
      - [frontend/src/hooks/useReliabilityMapData.ts] (payload types, fetch hook)
      - [frontend/src/pages/ReliabilityMap.tsx]       (layout effect, render)

    JavaScript [number]s are read as real numbers: [Math.cos], [Math.sin],
    [Math.PI] are the functions and constant of analysis and arithmetic is
    exact, except where a result is printed by [toFixed]: the product handed
    to [toFixed] is first rounded to binary64, since a rounding error there
    can change the digit printed.  The model has no NaN, no infinity and no
    negative zero, so the only falsy number is 0.  A JS
    [Map<string, _>] is a finite map keyed by strings; only [set] and [get]
    are used by the component, so insertion order is not observable.
    Optional fields ([score?], [lastRun?]) are [option]s, and every JS
    truthiness test is written out on the type it is applied to. *)

From Stdlib Require Import Reals Lra R_Ifp ZArith Ascii String Sorted.
From stdpp Require Import gmap strings list pretty.

(** ** Payload types ([useReliabilityMapData.ts], lines 3-23) *)

Inductive NodeType := agent | suite | persona | memory.

Module Node.
Record t := mk {
  id : string;
  label : string;
  type : NodeType;
  x : option R;
  y : option R;
  score : option R;
  lastRun : option string
}.
End Node.
Abbreviation Node := Node.t.

Module Link.
Record t := mk {
  source : string;
  target : string;
  strength : R;
  drift : R
}.
End Link.
Abbreviation Link := Link.t.

Record ReliabilityMapData := {
  nodes : list Node;
  links : list Link
}.

(** ** Position map ([ReliabilityMap.tsx], line 9) *)

Module Position.
Record t := mk { x : R; y : R }.
End Position.
Abbreviation Position := Position.t.

Abbreviation PositionMap := (gmap string Position).

(** ** The layout effect ([ReliabilityMap.tsx], lines 11-30) *)

Definition centerX : R := 400.
Definition centerY : R := 300.
Definition radius : R := 150.

(** [const angle = (index / surroundingNodes.length) * 2 * Math.PI] *)
Definition angle (index len : nat) : R :=
  (INR index / INR len * 2 * PI)%R.

(** The object [{ x, y }] built by the [forEach] callback at [index]. *)
Definition slot (index len : nat) : Position :=
  Position.mk (centerX + radius * cos (angle index len))%R
              (centerY + radius * sin (angle index len))%R.

(** [surroundingNodes.forEach((node, index) => newPositions.set(node.id, ..))],
    started at [index]; [len] is [surroundingNodes.length]. *)
Fixpoint forEach_set (len index : nat) (l : list Node) (newPositions : PositionMap)
  : PositionMap :=
  match l with
  | [] => newPositions
  | node :: rest =>
      forEach_set len (S index) rest (<[Node.id node := slot index len]> newPositions)
  end.

(** [data.nodes.filter(n => n.id !== 'agent')] *)
Definition surroundingNodes (ns : list Node) : list Node :=
  filter (λ n, Node.id n ≠ "agent") ns.

Definition layout (ns : list Node) : PositionMap :=
  let newPositions := <["agent" := Position.mk centerX centerY]> (∅ : PositionMap) in
  forEach_set (length (surroundingNodes ns)) 0 (surroundingNodes ns) newPositions.

(** The map after the first [k] calls of the [forEach] callback. *)
Definition layoutAfter (k : nat) (ns : list Node) : PositionMap :=
  let newPositions := <["agent" := Position.mk centerX centerY]> (∅ : PositionMap) in
  forEach_set (length (surroundingNodes ns)) 0 (take k (surroundingNodes ns)) newPositions.

(** A function call either returns or throws.  [Thrown] is what a [catch]
    clause can tell apart with [err instanceof Error]. *)
Inductive Thrown :=
  | ErrorInstance (message : string)
  | NotAnError.

Inductive Completion (A : Type) :=
  | Returns (a : A)
  | Throws (e : Thrown).
Arguments Returns {A} a.
Arguments Throws {A} e.

(** The body of [useEffect(() => { ... }, [data])]: [positions] is the
    current state, the result is the state after the effect. The body holds
    no [throw]. *)
Definition layoutEffect (d : option ReliabilityMapData) (positions : PositionMap)
  : Completion PositionMap :=
  match d with
  | None => Returns positions                    (* if (!data) return; *)
  | Some d => Returns (layout (nodes d))         (* setPositions(newPositions) *)
  end.

(** ** The fetch hook ([useReliabilityMapData.ts], lines 25-50) *)

Record HookState := {
  data : option ReliabilityMapData;
  loading : bool;
  error : option string
}.

Definition initialState : HookState :=
  {| data := None; loading := true; error := None |}.

Definition setData (result : option ReliabilityMapData) (st : HookState) :=
  {| data := result; loading := loading st; error := error st |}.
Definition setLoading (b : bool) (st : HookState) :=
  {| data := data st; loading := b; error := error st |}.
Definition setError (e : option string) (st : HookState) :=
  {| data := data st; loading := loading st; error := e |}.

(** What the environment answers to [fetch('/api/reliability_map')] and to
    [response.json()]. A body that parses is taken at the type the hook
    declares for it on line 37, [ReliabilityMapData], or is [null]; bodies
    of another shape, on which [data.nodes.filter] or [data.links.map] would
    throw, are outside the model. *)
Inductive JsonOutcome :=
  | JsonRejects (reason : Thrown)
  | JsonResolves (result : option ReliabilityMapData).

Inductive FetchOutcome :=
  | FetchRejects (reason : Thrown)
  | FetchResolves (status : nat) (json : JsonOutcome).

(** [response.ok]: the status is in the range 200-299. *)
Definition ok (status : nat) : bool :=
  (200 <=? status) && (status <=? 299).

Definition tryBlock (o : FetchOutcome) (st : HookState) : Completion HookState :=
  match o with
  | FetchRejects reason => Throws reason
  | FetchResolves status json =>
      if negb (ok status) then Throws (ErrorInstance "Failed to fetch reliability map data")
      else match json with
           | JsonRejects reason => Throws reason
           | JsonResolves result => Returns (setData result st)
           end
  end.

(** [err instanceof Error ? err.message : 'Unknown error'] *)
Definition surfaced (err : Thrown) : string :=
  match err with
  | ErrorInstance message => message
  | NotAnError => "Unknown error"
  end.

Definition catchBlock (err : Thrown) (st : HookState) : HookState :=
  setError (Some (surfaced err)) st.

Definition finallyBlock (st : HookState) : HookState := setLoading false st.

Definition fetchData (o : FetchOutcome) (st : HookState) : HookState :=
  finallyBlock
    match tryBlock o st with
    | Returns st' => st'
    | Throws err => catchBlock err st
    end.

(** What the hook returns: the initial state while the fetch is pending,
    the state left by [fetchData] once it has settled with outcome [o]. *)
Definition useReliabilityMapData (settled : option FetchOutcome) : HookState :=
  match settled with
  | None => initialState
  | Some o => fetchData o initialState
  end.

(** ** Formatting helpers used by the JSX *)

(** What the host decides: [Number::toString] (reached by [toFixed] only
    from 10^21 on) and [new Date(s).toLocaleString()], which depends on the
    locale and time zone. *)
Record Host := {
  Number_toString : R → string;
  Date_toLocaleString : string → string
}.

#[global] Instance R_eq_dec : EqDecision R := Req_dec_T.

(** Rounding of a real result to binary64, the format of a JS [number]:
    round to nearest, ties to the even significand, 53 significant bits,
    and the fixed spacing 2^-1074 below 2^-1022. Results beyond the largest
    finite number (which JS turns into an infinity) are not cut off. *)
Definition roundHalfEven (y : R) : Z :=
  let f := Int_part y in
  if Rlt_dec (y - IZR f) (/ 2) then f
  else if Rlt_dec (/ 2) (y - IZR f) then (f + 1)%Z
  else if Z.even f then f else (f + 1)%Z.

(** The binary exponent of [v], at least -1022: 2^e <= |v| < 2^(e+1). *)
Definition binary64_exponent (v : R) : Z :=
  Z.max (Int_part (ln (Rabs v) / ln 2)) (-1022).

(** The spacing of binary64 numbers around [v]. *)
Definition binary64_ulp (v : R) : R := powerRZ 2 (binary64_exponent v - 52).

Definition binary64 (v : R) : R :=
  (IZR (roundHalfEven (v / binary64_ulp v)) * binary64_ulp v)%R.

Definition LF : string := String "010"%char EmptyString.

(** [v.toFixed(0)]: sign, then the integer nearest to the magnitude, the
    larger one on a tie; from 10^21 on the host's [toString]. *)
Definition toFixed0 (host : Host) (v : R) : string :=
  let s := if Rlt_dec v 0%R then "-" else "" in
  let a := if Rlt_dec v 0%R then (- v)%R else v in
  if Rle_dec (10 ^ 21)%R a then s +:+ Number_toString host a
  else s +:+ pretty (Int_part (a + / 2)%R).

(** [`${node.type}`] *)
Definition NodeType_toString (t : NodeType) : string :=
  match t with
  | agent => "agent"
  | suite => "suite"
  | persona => "persona"
  | memory => "memory"
  end.

(** [a || b] on strings: the empty string is falsy. *)
Definition string_or (a b : string) : string :=
  if decide (a = "") then b else a.

(** [data.nodes.find(n => n.id === id)?.label || id] *)
Definition labelOr (ns : list Node) (id : string) : string :=
  match find (λ n, bool_decide (Node.id n = id)) ns with
  | Some n => string_or (Node.label n) id
  | None => id
  end.

(** ** Rendered elements ([ReliabilityMap.tsx], lines 74-145) *)

Module Line.
Record t := mk {
  key : nat;
  x1 : R; y1 : R; x2 : R; y2 : R;
  stroke : string;
  strokeWidth : R;
  opacity : R;
  className : string;
  title : string
}.
End Line.

Module Circle.
Record t := mk {
  cx : R; cy : R; r : R;
  fill : string;
  opacity : R;
  title : string
}.
End Circle.

Module Text.
Record t := mk {
  x : R; y : R;
  textAnchor : string;
  fontSize : string;
  fill : string;
  children : string
}.
End Text.

(** The value of [{node.score && (<text>..</text>)}]: [undefined] when the
    score is absent, the score itself when it is a falsy number, the
    [<text>] element otherwise. *)
Inductive ScoreChild :=
  | ChildUndefined
  | ChildNumber (v : R)
  | ChildText (t : Text.t).

Module Group.
Record t := mk {
  key : string;
  circle : Circle.t;
  labelText : Text.t;
  scoreChild : ScoreChild
}.
End Group.

(** The component's return value, lines 32-149: one of the three
    placeholders, or the [<svg>] with the results of the two [map] calls. *)
Inductive View :=
  | ViewLoading                       (* "Loading reliability network..." *)
  | ViewError (message : string)      (* the destructive panel holding {error} *)
  | ViewEmpty                         (* "No reliability data available." *)
  | ViewReady (lines : list (option Line.t)) (groups : list (option Group.t)).

Section Render.
Variable host : Host.

(** The template literal of line 82. *)
Definition linkTooltip (ns : list Node) (link : Link) : string :=
  "Connection: " +:+ labelOr ns (Link.source link) +:+ " â†’ "
    +:+ labelOr ns (Link.target link) +:+ LF
    +:+ "Strength: " +:+ toFixed0 host (binary64 (Link.strength link * 100)) +:+ "%" +:+ LF
    +:+ "Drift: " +:+ toFixed0 host (binary64 (Link.drift link * 100)) +:+ "%".

(** The callback of [data.links.map((link, index) => ...)], lines 75-99;
    [None] is the callback's [return null]. *)
Definition renderLink (positions : PositionMap) (ns : list Node)
    (index : nat) (link : Link) : option Line.t :=
  match positions !! Link.source link, positions !! Link.target link with
  | Some sourcePos, Some targetPos =>
      Some {| Line.key := index;
              Line.x1 := Position.x sourcePos;
              Line.y1 := Position.y sourcePos;
              Line.x2 := Position.x targetPos;
              Line.y2 := Position.y targetPos;
              Line.stroke := "hsl(var(--primary))";
              Line.strokeWidth := (Link.strength link * 5)%R;
              Line.opacity := (1 - Link.drift link)%R;
              Line.className := "animate-pulse";
              Line.title := linkTooltip ns link |}
  | _, _ => None
  end.

(** [node.score ? (node.score * 100).toFixed(0) + '%' : 'N/A'] *)
Definition scoreField (score : option R) : string :=
  match score with
  | Some v =>
      if decide (v = 0%R) then "N/A" else toFixed0 host (binary64 (v * 100)) +:+ "%"
  | None => "N/A"
  end.

(** [node.lastRun ? new Date(node.lastRun).toLocaleString() : 'N/A'] *)
Definition lastRunField (lastRun : option string) : string :=
  match lastRun with
  | Some s => if decide (s = "") then "N/A" else Date_toLocaleString host s
  | None => "N/A"
  end.

(** The template literal of line 107. *)
Definition nodeTooltip (node : Node) : string :=
  "Type: " +:+ NodeType_toString (Node.type node) +:+ LF
    +:+ "Score: " +:+ scoreField (Node.score node) +:+ LF
    +:+ "Last Run: " +:+ lastRunField (Node.lastRun node).

(** [node.score || 0.8] *)
Definition fillOpacity (score : option R) : R :=
  match score with
  | Some v => if decide (v = 0%R) then 0.8%R else v
  | None => 0.8%R
  end.

(** [node.score && (<text ..>{(node.score * 100).toFixed(0)}%</text>)] *)
Definition scoreLabel (score : option R) (pos : Position) (size : R) : ScoreChild :=
  match score with
  | Some v =>
      if decide (v = 0%R) then ChildNumber v
      else ChildText {| Text.x := Position.x pos;
                        Text.y := (Position.y pos - size - 5)%R;
                        Text.textAnchor := "middle";
                        Text.fontSize := "10";
                        Text.fill := "hsl(var(--muted-foreground))";
                        Text.children := toFixed0 host (binary64 (v * 100)) +:+ "%" |}
  | None => ChildUndefined
  end.

(** The callback of [data.nodes.map((node) => ...)], lines 100-144. *)
Definition renderNode (positions : PositionMap) (node : Node) : option Group.t :=
  match positions !! Node.id node with
  | None => None
  | Some pos =>
      let size : R := match Node.type node with agent => 20%R | _ => 15%R end in
      let color :=
        match Node.type node with
        | agent => "hsl(var(--primary))"
        | suite => "hsl(var(--secondary))"
        | _ => "hsl(var(--muted))"
        end in
      let tooltip := nodeTooltip node in
      Some {| Group.key := Node.id node;
              Group.circle :=
                {| Circle.cx := Position.x pos;
                   Circle.cy := Position.y pos;
                   Circle.r := size;
                   Circle.fill := color;
                   Circle.opacity := fillOpacity (Node.score node);
                   Circle.title := tooltip |};
              Group.labelText :=
                {| Text.x := Position.x pos;
                   Text.y := (Position.y pos + size + 15)%R;
                   Text.textAnchor := "middle";
                   Text.fontSize := "12";
                   Text.fill := "hsl(var(--foreground))";
                   Text.children := Node.label node |};
              Group.scoreChild := scoreLabel (Node.score node) pos size |}
  end.

Definition ReliabilityMap (h : HookState) (positions : PositionMap) : View :=
  let afterError :=
    match data h with
    | None => ViewEmpty
    | Some d =>
        ViewReady (imap (renderLink positions (nodes d)) (links d))
                  (renderNode positions <$> nodes d)
    end in
  if loading h then ViewLoading
  else match error h with
       | Some e => if decide (e = "") then afterError else ViewError e
       | None => afterError
       end.

(** One mount of the component, at rest: the fetch has settled with outcome
    [o], the layout effect has run on the hook's [data] from the initial
    [new Map()], and the component has rendered with the resulting
    positions. (The render between the arrival of the data and the effect
    still sees the empty map.) An exception escaping the effect would
    escape the mount. *)
Definition mounted (o : FetchOutcome) : Completion View :=
  let h := useReliabilityMapData (Some o) in
  match layoutEffect (data h) ∅ with
  | Returns positions => Returns (ReliabilityMap h positions)
  | Throws e => Throws e
  end.

(** The [<svg>] of a payload that has arrived, once the effect has run. *)
Definition scene (d : ReliabilityMapData) : View :=
  ReliabilityMap {| data := Some d; loading := false; error := None |}
                 (layout (nodes d)).
End Render.

(** What React puts in the DOM for an array of children: [null] entries
    produce nothing. *)
Definition renderedLines (v : View) : list Line.t :=
  match v with
  | ViewReady lines _ => omap (λ e, e) lines
  | _ => []
  end.

Definition renderedGroups (v : View) : list Group.t :=
  match v with
  | ViewReady _ groups => omap (λ e, e) groups
  | _ => []
  end.

(** ** Vocabulary of the statements *)

(** An id that is a key of the position map of [ns]: the literal ["agent"]
    or the id of some node of the payload. *)
Definition resolves (ns : list Node) (id : string) : Prop :=
  id = "agent" ∨ ∃ node, node ∈ ns ∧ Node.id node = id.

(** The same node with its [score] field removed. *)
Definition withoutScore (node : Node) : Node :=
  Node.mk (Node.id node) (Node.label node) (Node.type node)
          (Node.x node) (Node.y node) None (Node.lastRun node).

(** The point at angle [θ] of the circle of radius 150 around (400, 300). *)
Definition polar (θ : R) : Position :=
  Position.mk (400 + 150 * cos θ) (300 + 150 * sin θ).

(** The clamp to [0,1] of the specification's link opacity; the component
    has no counterpart. *)
Definition spec_clamp01 (v : R) : R := Rmax 0 (Rmin 1 v).

(** ** Sample payloads *)

(** A host for the closed statements; they hold for every host. *)
Definition placeholderHost : Host :=
  {| Number_toString := λ _, "1e+21"; Date_toLocaleString := λ s, s |}.

Definition plainNode (id label : string) (type : NodeType) (score : option R) : Node :=
  Node.mk id label type None None score None.

(** The payload of [tests/ReliabilityMap.spec.tsx]. *)
Definition testPayload : ReliabilityMapData :=
  {| nodes := [plainNode "agent" "Active Agent" agent (Some 0.85%R);
               plainNode "output" "Calculator Demo Suite" suite (Some 0.8%R)];
     links := [Link.mk "agent" "output" 0.8 0.1] |}.

(** Its link, drawn from the centre to (550, 300). *)
Definition testLine : Line.t :=
  {| Line.key := 0;
     Line.x1 := 400; Line.y1 := 300; Line.x2 := 550; Line.y2 := 300;
     Line.stroke := "hsl(var(--primary))";
     Line.strokeWidth := 0.8 * 5;
     Line.opacity := 1 - 0.1;
     Line.className := "animate-pulse";
     Line.title := linkTooltip placeholderHost (nodes testPayload)
                     (Link.mk "agent" "output" 0.8 0.1) |}.

(** The id ["s1"] twice. *)
Definition twins : list Node :=
  [plainNode "s1" "first" suite None; plainNode "s1" "second" suite None].

Definition hubAndTwo : list Node :=
  [plainNode "s1" "Suite one" suite (Some 0.8%R);
   plainNode "agent" "Active Agent" agent (Some 0.85%R);
   plainNode "s2" "Suite two" suite None].

(** An agent node followed by the id ["s1"] twice, and a link to that id. *)
Definition hubAndTwins : ReliabilityMapData :=
  {| nodes := plainNode "agent" "Active Agent" agent (Some 0.85%R) :: twins;
     links := [Link.mk "agent" "s1" 0.8 0.1] |}.

(** A suite measured at zero. *)
Definition zeroScore : Node := plainNode "s1" "Suite one" suite (Some 0%R).

(** A link whose drift exceeds 1. *)
Definition fadedLink : Link := Link.mk "agent" "s1" 0.5 2.

(** No node has id ["agent"], and the only link starts at ["agent"]. *)
Definition noAgent : ReliabilityMapData :=
  {| nodes := [plainNode "s1" "Suite one" suite (Some 0.8%R)];
     links := [Link.mk "agent" "s1" 0.8 0.1] |}.

(** An agent and a suite; the second link points to an id no node has. *)
Definition oneDangling : ReliabilityMapData :=
  {| nodes := [plainNode "agent" "Active Agent" agent (Some 0.85%R);
               plainNode "s1" "Suite one" suite (Some 0.8%R)];
     links := [Link.mk "agent" "s1" 0.8 0.1; Link.mk "agent" "ghost" 0.5 0.5] |}.

(** No node at all; the link goes from ["agent"] to an unknown id. *)
Definition ghostTarget : ReliabilityMapData :=
  {| nodes := [];
     links := [Link.mk "agent" "ghost" 0.8 0.1] |}.

(** The drawing surface, [<svg width="800" height="600">] (line 74). *)
Definition svgWidth : R := 800.
Definition svgHeight : R := 600.

(** * Properties *)

(** ** Rounding to binary64 *)

Section Rounding.
Local Open Scope R_scope.

Lemma Rabs_le_bounds a b : Rabs a <= b → - b <= a <= b.
Proof. unfold Rabs. destruct (Rcase_abs a); lra. Qed.

Lemma ln2_pos : 0 < ln 2.
Proof. pose proof ln_lt_2. lra. Qed.

Lemma ln_powerRZ2 e : ln (powerRZ 2 e) = IZR e * ln 2.
Proof. rewrite powerRZ_Rpower by lra. apply ln_Rpower. Qed.

Lemma log2_floor x e :
  powerRZ 2 e <= x < powerRZ 2 (e + 1) → Int_part (ln x / ln 2) = e.
Proof.
  intros [Hlo Hhi]. pose proof ln2_pos as H2.
  assert (Hp : 0 < powerRZ 2 e) by (apply powerRZ_lt; lra).
  assert (Hx : 0 < x) by lra.
  assert (Hl : IZR e * ln 2 <= ln x).
  { rewrite <- ln_powerRZ2. destruct Hlo as [Hlt| ->]; [|lra].
    left. by apply ln_increasing. }
  assert (Hu : ln x < IZR (e + 1) * ln 2).
  { rewrite <- ln_powerRZ2. by apply ln_increasing. }
  rewrite plus_IZR in Hu.
  symmetry. apply Int_part_spec. split.
  - apply (Rmult_lt_reg_r (ln 2)); [done|].
    unfold Rdiv. rewrite Rmult_minus_distr_r, Rmult_assoc, Rinv_l by lra. lra.
  - apply (Rmult_le_reg_r (ln 2)); [done|].
    unfold Rdiv. rewrite Rmult_assoc, Rinv_l by lra. lra.
Qed.

Lemma binary64_exponent_spec v e :
  (-1022 ≤ e)%Z →
  powerRZ 2 e <= Rabs v < powerRZ 2 (e + 1) →
  binary64_exponent v = e.
Proof.
  intros He Hv. unfold binary64_exponent. rewrite (log2_floor _ _ Hv). lia.
Qed.

Lemma binary64_exponent_le v e :
  (-1022 ≤ e)%Z → 0 < Rabs v < powerRZ 2 (e + 1) → (binary64_exponent v ≤ e)%Z.
Proof.
  intros He [Hpos Hhi]. unfold binary64_exponent.
  apply Z.max_lub; [|done].
  pose proof ln2_pos as H2.
  assert (Hu : ln (Rabs v) < IZR (e + 1) * ln 2).
  { rewrite <- ln_powerRZ2. by apply ln_increasing. }
  destruct (base_Int_part (ln (Rabs v) / ln 2)) as [Hfloor _].
  assert (Hq : ln (Rabs v) / ln 2 < IZR (e + 1)).
  { apply (Rmult_lt_reg_r (ln 2)); [done|].
    unfold Rdiv. rewrite Rmult_assoc, Rinv_l by lra. lra. }
  assert (Int_part (ln (Rabs v) / ln 2) < e + 1)%Z; [|lia].
  apply lt_IZR. lra.
Qed.

Lemma binary64_ulp_pos v : 0 < binary64_ulp v.
Proof. apply powerRZ_lt. lra. Qed.

Lemma roundHalfEven_near y : Rabs (IZR (roundHalfEven y) - y) <= / 2.
Proof.
  unfold roundHalfEven. destruct (base_Int_part y) as [Hlo Hhi].
  destruct (Rlt_dec (y - IZR (Int_part y)) (/ 2)) as [Hlt|Hge].
  - apply Rabs_le. lra.
  - assert (Hup : Rabs (IZR (Int_part y + 1) - y) <= / 2).
    { rewrite plus_IZR. apply Rabs_le. lra. }
    destruct (Rlt_dec (/ 2) (y - IZR (Int_part y))); [done|].
    destruct (Z.even (Int_part y)); [|done]. apply Rabs_le. lra.
Qed.

Lemma roundHalfEven_le y n : y <= IZR n → (roundHalfEven y ≤ n)%Z.
Proof.
  intros Hy. destruct (base_Int_part y) as [Hlo Hhi].
  assert (Hfloor : (Int_part y ≤ n)%Z) by (apply le_IZR; lra).
  assert (Hstep : y - IZR (Int_part y) ≠ 0 → (Int_part y + 1 ≤ n)%Z).
  { intros Hne. assert (Int_part y < n)%Z; [|lia]. apply lt_IZR. lra. }
  unfold roundHalfEven.
  destruct (Rlt_dec (y - IZR (Int_part y)) (/ 2)); [done|].
  destruct (Rlt_dec (/ 2) (y - IZR (Int_part y))); [apply Hstep; lra|].
  destruct (Z.even (Int_part y)); [done|]. apply Hstep. lra.
Qed.

Lemma roundHalfEven_ge y n : IZR n <= y → (n ≤ roundHalfEven y)%Z.
Proof.
  intros Hy. destruct (base_Int_part y) as [Hlo Hhi].
  assert (Hfloor : (n ≤ Int_part y)%Z).
  { assert (n < Int_part y + 1)%Z; [|lia]. apply lt_IZR. rewrite plus_IZR. lra. }
  unfold roundHalfEven.
  destruct (Rlt_dec (y - IZR (Int_part y)) (/ 2)); [done|].
  destruct (Rlt_dec (/ 2) (y - IZR (Int_part y))); [lia|].
  destruct (Z.even (Int_part y)); lia.
Qed.

Lemma binary64_near v : Rabs (binary64 v - v) <= binary64_ulp v / 2.
Proof.
  pose proof (binary64_ulp_pos v) as Hu. unfold binary64.
  replace (IZR (roundHalfEven (v / binary64_ulp v)) * binary64_ulp v - v)
    with ((IZR (roundHalfEven (v / binary64_ulp v)) - v / binary64_ulp v)
          * binary64_ulp v) by (field; lra).
  rewrite Rabs_mult, (Rabs_right (binary64_ulp v)) by lra.
  pose proof (roundHalfEven_near (v / binary64_ulp v)). nra.
Qed.

Lemma binary64_nonneg v : 0 <= v → 0 <= binary64 v.
Proof.
  intros Hv. pose proof (binary64_ulp_pos v) as Hu. unfold binary64.
  apply Rmult_le_pos; [|lra]. apply IZR_le.
  apply roundHalfEven_ge. apply Rmult_le_pos; [done|].
  left. by apply Rinv_0_lt_compat.
Qed.

(** A bound that is a multiple of the spacing is not exceeded. *)
Lemma binary64_le_multiple v (n : Z) :
  v <= IZR n * binary64_ulp v → binary64 v <= IZR n * binary64_ulp v.
Proof.
  intros Hv. pose proof (binary64_ulp_pos v) as Hu. unfold binary64.
  apply Rmult_le_compat_r; [lra|]. apply IZR_le. apply roundHalfEven_le.
  apply (Rmult_le_reg_r (binary64_ulp v)); [done|].
  unfold Rdiv. rewrite Rmult_assoc, Rinv_l by lra. lra.
Qed.

Lemma powerRZ2_Zpower (k : Z) : (0 ≤ k)%Z → powerRZ 2 k = IZR (2 ^ k).
Proof.
  intros Hk. rewrite <- (Z2Nat.id k Hk) at 1.
  rewrite <- pow_powerRZ, pow_IZR. by rewrite Z2Nat.id.
Qed.

Lemma powerRZ2_le (a b : Z) : (a ≤ b)%Z → powerRZ 2 a <= powerRZ 2 b.
Proof.
  intros Hab. replace b with (a + (b - a))%Z by lia.
  rewrite powerRZ_add by lra. rewrite (powerRZ2_Zpower (b - a)) by lia.
  assert (Hone : 1 <= IZR (2 ^ (b - a))).
  { apply IZR_le. assert (0 < 2 ^ (b - a))%Z by (apply Z.pow_pos_nonneg; lia). lia. }
  assert (0 < powerRZ 2 a) by (apply powerRZ_lt; lra). nra.
Qed.

Lemma binary64_percent v :
  0 < v <= 100 →
  0 <= binary64 v <= 100 ∧ Rabs (binary64 v - v) <= / 2 ^ 47.
Proof.
  intros [Hpos Hle].
  assert (He : (binary64_exponent v ≤ 6)%Z).
  { apply binary64_exponent_le; [lia|]. rewrite Rabs_right by lra.
    split; [done|]. change (6 + 1)%Z with 7%Z. rewrite powerRZ2_Zpower by lia.
    change (2 ^ 7)%Z with 128%Z. lra. }
  pose proof (binary64_ulp_pos v) as Hu.
  assert (Hmul : 100 = IZR (100 * 2 ^ (52 - binary64_exponent v)) * binary64_ulp v).
  { unfold binary64_ulp. rewrite mult_IZR, <- powerRZ2_Zpower by lia.
    rewrite Rmult_assoc, <- powerRZ_add by lra.
    replace (52 - binary64_exponent v + (binary64_exponent v - 52))%Z with 0%Z by lia.
    cbn. lra. }
  split; [split|].
  - apply binary64_nonneg. lra.
  - apply Rle_trans
      with (IZR (100 * 2 ^ (52 - binary64_exponent v)) * binary64_ulp v).
    + apply binary64_le_multiple. by rewrite <- Hmul.
    + rewrite <- Hmul. lra.
  - etrans; [apply binary64_near|].
    assert (Hulp : binary64_ulp v <= / 2 ^ 46).
    { unfold binary64_ulp.
      replace (/ 2 ^ 46) with (powerRZ 2 (-46)) by reflexivity.
      apply powerRZ2_le. lia. }
    replace (/ 2 ^ 47) with (/ 2 ^ 46 / 2) by (simpl; field). lra.
Qed.

Lemma roundHalfEven_down y f : IZR f <= y < IZR f + / 2 → roundHalfEven y = f.
Proof.
  intros Hy. unfold roundHalfEven.
  rewrite <- (Int_part_spec y f) by lra.
  destruct (Rlt_dec (y - IZR f) (/ 2)); [done | lra].
Qed.

Lemma roundHalfEven_up y f : IZR f + / 2 < y < IZR f + 1 → roundHalfEven y = (f + 1)%Z.
Proof.
  intros Hy. unfold roundHalfEven.
  rewrite <- (Int_part_spec y f) by lra.
  destruct (Rlt_dec (y - IZR f) (/ 2)); [lra|].
  destruct (Rlt_dec (/ 2) (y - IZR f)); [done | lra].
Qed.

Lemma roundHalfEven_tie f :
  roundHalfEven (IZR f + / 2) = if Z.even f then f else (f + 1)%Z.
Proof.
  unfold roundHalfEven.
  rewrite <- (Int_part_spec (IZR f + / 2) f) by lra.
  destruct (Rlt_dec (IZR f + / 2 - IZR f) (/ 2)); [lra|].
  destruct (Rlt_dec (/ 2) (IZR f + / 2 - IZR f)); [lra | done].
Qed.

(** The binary64 number nearest to 0.075 is 5404319552844595 / 2^56, just
    below 0.075; its product with 100 rounds to 7.5 exactly. *)
Lemma binary64_product_at_0075 :
  binary64 (5404319552844595 / 2 ^ 56 * 100) = 7.5.
Proof.
  assert (He : binary64_exponent (5404319552844595 / 2 ^ 56 * 100) = 2%Z).
  { apply binary64_exponent_spec; [lia|].
    rewrite Rabs_right.
    - change (2 + 1)%Z with 3%Z. rewrite !powerRZ2_Zpower by lia.
      rewrite pow_IZR. 
      change (2 ^ 2)%Z with 4%Z. change (2 ^ 3)%Z with 8%Z.
      set (d := (2 ^ Z.of_nat 56)%Z). vm_compute in d. subst d. lra.
    - rewrite pow_IZR. set (d := (2 ^ Z.of_nat 56)%Z). vm_compute in d. subst d. lra. }
  unfold binary64, binary64_ulp. rewrite He.
  change (2 - 52)%Z with (- (50))%Z. rewrite powerRZ_neg', powerRZ2_Zpower by lia.
  rewrite pow_IZR. set (d := (2 ^ Z.of_nat 56)%Z). vm_compute in d. subst d.
  set (u := (2 ^ 50)%Z). vm_compute in u. subst u.
  rewrite (roundHalfEven_up _ 8444249301319679) by lra.
  change (8444249301319679 + 1)%Z with 8444249301319680%Z. lra.
Qed.

End Rounding.

(** ** Layout *)

Lemma forEach_set_lookup_notin len index l (m : PositionMap) k :
  (∀ node, node ∈ l → Node.id node ≠ k) →
  forEach_set len index l m !! k = m !! k.
Proof.
  revert index m. induction l as [|node rest IH]; intros index m Hk; [done|].
  cbn [forEach_set]. rewrite IH.
  - apply lookup_insert_ne, Hk. left.
  - intros node' Hin. apply Hk. by right.
Qed.

Lemma forEach_set_lookup_last len index l (m : PositionMap) j node :
  l !! j = Some node →
  (∀ j' node', j < j' → l !! j' = Some node' → Node.id node' ≠ Node.id node) →
  forEach_set len index l m !! Node.id node = Some (slot (index + j) len).
Proof.
  revert index m j. induction l as [|first rest IH]; intros index m j Hj Hlast; [done|].
  cbn [forEach_set]. destruct j as [|j].
  - injection Hj as ->. rewrite forEach_set_lookup_notin.
    + rewrite Nat.add_0_r. apply lookup_insert_eq.
    + intros node' [j' Hj']%list_elem_of_lookup.
      apply (Hlast (S j')); [lia | done].
  - replace (index + S j) with (S index + j) by lia. apply IH; [done|].
    intros j' node' Hlt Hj'. apply (Hlast (S j')); [lia | done].
Qed.

Lemma surroundingNodes_elem ns node :
  node ∈ surroundingNodes ns ↔ Node.id node ≠ "agent" ∧ node ∈ ns.
Proof. unfold surroundingNodes. by rewrite list_elem_of_filter. Qed.

Lemma layout_agent ns :
  layout ns !! "agent" = Some (Position.mk centerX centerY).
Proof.
  unfold layout. rewrite forEach_set_lookup_notin.
  - apply lookup_insert_eq.
  - intros node Hin. apply surroundingNodes_elem in Hin. tauto.
Qed.

Lemma slot_coordinates index len :
  slot index len =
  Position.mk (400 + 150 * cos (INR index / INR len * 2 * PI))
              (300 + 150 * sin (INR index / INR len * 2 * PI)).
Proof. reflexivity. Qed.

(** C1, as stated, fails when an id occurs twice: in [twins] the node at
    index 0 of the two surrounding nodes is not at angle 0, i.e. at
    (550, 300); the map holds (250, 300), the slot of index 1, for its id. *)
Lemma twins_first_not_at_angle_zero :
  surroundingNodes twins !! 0 = Some (plainNode "s1" "first" suite None)
  ∧ length (surroundingNodes twins) = 2
  ∧ slot 0 2 = Position.mk 550 300
  ∧ layout twins !! "s1" = Some (Position.mk 250 300)
  ∧ layout twins !! "s1" ≠ Some (slot 0 2).
Proof.
  assert (Hs0 : slot 0 2 = Position.mk 550 300).
  { unfold slot, angle, centerX, centerY, radius.
    replace (INR 0 / INR 2 * 2 * PI)%R with 0%R by (simpl; field).
    rewrite cos_0, sin_0. f_equal; lra. }
  assert (Hs1 : slot 1 2 = Position.mk 250 300).
  { unfold slot, angle, centerX, centerY, radius.
    replace (INR 1 / INR 2 * 2 * PI)%R with PI by (simpl; field).
    rewrite cos_PI, sin_PI. f_equal; lra. }
  assert (Hl : layout twins !! "s1" = Some (Position.mk 250 300)).
  { rewrite <- Hs1. reflexivity. }
  repeat split; try done.
  rewrite Hl, Hs0. intros [= H]. lra.
Qed.

(** C1 (amended): for every list of nodes, the key ["agent"] is at the fixed
    centre (400, 300), and the node at index [i] of the [n] surrounding nodes
    (id other than ["agent"], in input order) is at
    (400 + 150 cos θ, 300 + 150 sin θ) with θ = (i/n)·2π, provided no later
    surrounding node carries the same id. *)
Theorem layout_radial (ns : list Node) :
  layout ns !! "agent" = Some (Position.mk 400 300)
  ∧ ∀ i node,
      surroundingNodes ns !! i = Some node →
      (∀ j later, i < j → surroundingNodes ns !! j = Some later →
                  Node.id later ≠ Node.id node) →
      let n := length (surroundingNodes ns) in
      layout ns !! Node.id node =
        Some (Position.mk (400 + 150 * cos (INR i / INR n * 2 * PI))
                          (300 + 150 * sin (INR i / INR n * 2 * PI))).
Proof.
  split; [apply layout_agent|].
  intros i node Hi Hlast n. rewrite <- slot_coordinates.
  unfold layout. by apply (forEach_set_lookup_last _ 0 _ _ i).
Qed.

Lemma layout_radial_witness :
  surroundingNodes hubAndTwo !! 1 = Some (plainNode "s2" "Suite two" suite None)
  ∧ layout hubAndTwo !! "s2" =
      Some (Position.mk (400 + 150 * cos (INR 1 / INR 2 * 2 * PI))
                        (300 + 150 * sin (INR 1 / INR 2 * 2 * PI))).
Proof.
  split; [reflexivity|].
  apply (proj2 (layout_radial hubAndTwo) 1 (plainNode "s2" "Suite two" suite None));
    [reflexivity|].
  intros [|[|j]] later Hlt Hj; [lia | lia | discriminate].
Defined.

(** ** Node encoding *)

Lemma fillOpacity_absent : fillOpacity None = 0.8%R.
Proof. reflexivity. Qed.

Lemma fillOpacity_zero : fillOpacity (Some 0%R) = 0.8%R.
Proof. unfold fillOpacity. by rewrite decide_True. Qed.

Lemma fillOpacity_nonzero v : v ≠ 0%R → fillOpacity (Some v) = v.
Proof. intros Hv. unfold fillOpacity. by rewrite decide_False. Qed.

Lemma scoreField_zero host : scoreField host (Some 0%R) = "N/A".
Proof. unfold scoreField. by rewrite decide_True. Qed.

Lemma scoreField_nonzero host v :
  v ≠ 0%R → scoreField host (Some v) = toFixed0 host (binary64 (v * 100)) +:+ "%".
Proof. intros Hv. unfold scoreField. by rewrite decide_False. Qed.

Lemma scoreLabel_zero host pos size :
  scoreLabel host (Some 0%R) pos size = ChildNumber 0.
Proof. unfold scoreLabel. by rewrite decide_True. Qed.

(** [toFixed(0)] of a magnitude below 10^21 prints the nearest integer, the
    upper one on a tie. *)
Lemma toFixed0_nearest host v z :
  (0 <= v)%R → (v < 10 ^ 21)%R → (IZR z - / 2 <= v < IZR z + / 2)%R →
  toFixed0 host v = pretty z.
Proof.
  intros H0 Hbig [Hlo Hhi]. unfold toFixed0.
  destruct (Rlt_dec v 0) as [Hneg|_]; [lra|].
  destruct (Rle_dec (10 ^ 21) v) as [Hge|_]; [lra|].
  rewrite <- (Int_part_spec (v + / 2) z); [done | lra].
Qed.

Lemma toFixed0_zero host : toFixed0 host 0 = "0".
Proof.
  rewrite (toFixed0_nearest host 0 0); [reflexivity | lra | | lra].
  apply pow_lt. lra.
Qed.

Lemma renderNode_at host (positions : PositionMap) node pos :
  positions !! Node.id node = Some pos →
  ∃ g, renderNode host positions node = Some g
       ∧ Circle.cx (Group.circle g) = Position.x pos
       ∧ Circle.cy (Group.circle g) = Position.y pos
       ∧ Circle.opacity (Group.circle g) = fillOpacity (Node.score node)
       ∧ Circle.title (Group.circle g) = nodeTooltip host node
       ∧ Group.scoreChild g =
           scoreLabel host (Node.score node) pos
                      (match Node.type node with agent => 20 | _ => 15 end).
Proof. intros Hpos. unfold renderNode. rewrite Hpos. eauto 10. Qed.

Lemma layout_zeroScore : layout [zeroScore] !! "s1" = Some (Position.mk 550 300).
Proof.
  change (layout [zeroScore] !! "s1") with (Some (slot 0 1)).
  unfold slot, angle, centerX, centerY, radius.
  replace (INR 0 / INR 1 * 2 * PI)%R with 0%R by (simpl; field).
  rewrite cos_0, sin_0. do 2 f_equal; lra.
Qed.

(** C2 at a suite measured at zero: the score is present and equals 0, the
    circle is drawn, and its fill opacity is the default 0.8, not the score. *)
Theorem zero_score_fill_opacity (host : Host) :
  Node.score zeroScore = Some 0%R
  ∧ ∃ g, renderNode host (layout [zeroScore]) zeroScore = Some g
         ∧ Circle.opacity (Group.circle g) = 0.8%R
         ∧ Circle.opacity (Group.circle g) ≠ 0%R.
Proof.
  split; [reflexivity|].
  destruct (renderNode_at host (layout [zeroScore]) zeroScore _ layout_zeroScore)
    as (g & Hg & _ & _ & Hop & _).
  exists g. rewrite Hop. cbn [zeroScore plainNode Node.score].
  rewrite fillOpacity_zero. repeat split; [done | lra].
Qed.

(** C3 at a suite measured at zero: the tooltip's score field is the literal
    "N/A", whereas [toFixed(0)] of 0 × 100 followed by '%' is "0%". *)
Theorem zero_score_tooltip (host : Host) :
  Node.score zeroScore = Some 0%R
  ∧ (∃ g, renderNode host (layout [zeroScore]) zeroScore = Some g
          ∧ Circle.title (Group.circle g) =
              "Type: suite" +:+ LF +:+ "Score: N/A" +:+ LF +:+ "Last Run: N/A")
  ∧ toFixed0 host (0 * 100) +:+ "%" = "0%".
Proof.
  split; [reflexivity|]. split.
  - destruct (renderNode_at host (layout [zeroScore]) zeroScore _ layout_zeroScore)
      as (g & Hg & _ & _ & _ & Htitle & _).
    exists g. split; [done|]. rewrite Htitle. unfold nodeTooltip.
    cbn [zeroScore plainNode Node.score Node.type Node.lastRun].
    by rewrite scoreField_zero.
  - rewrite Rmult_0_l, toFixed0_zero. reflexivity.
Qed.

(** C9, as stated, fails: the group drawn for a node with score 0 is not
    the group drawn for the same node without a score. In [zeroScore] the
    child that line 131 computes with [&&] is the number 0, which React
    renders as the text "0" inside the [<g>]; without a score it is
    [undefined], which renders nothing. *)
Lemma zero_score_group_differs :
  Node.score zeroScore = Some 0%R
  ∧ layout [zeroScore] !! Node.id zeroScore = Some (Position.mk 550 300)
  ∧ ∃ g g',
      renderNode placeholderHost (layout [zeroScore]) zeroScore = Some g
      ∧ renderNode placeholderHost (layout [zeroScore]) (withoutScore zeroScore) = Some g'
      ∧ Group.scoreChild g = ChildNumber 0
      ∧ Group.scoreChild g' = ChildUndefined
      ∧ g ≠ g'.
Proof.
  split; [reflexivity|]. split; [apply layout_zeroScore|].
  unfold renderNode.
  cbn [withoutScore zeroScore plainNode Node.id Node.type Node.score
       Node.label Node.lastRun].
  rewrite layout_zeroScore. eexists _, _.
  split; [reflexivity|]. split; [reflexivity|].
  cbn [Group.scoreChild]. rewrite scoreLabel_zero.
  split; [reflexivity|]. split; [reflexivity|].
  intros Heq. apply (f_equal Group.scoreChild) in Heq.
  cbn [Group.scoreChild] in Heq. discriminate.
Qed.

(** C9 (amended): a node whose score is present and exactly 0 is drawn like
    the same node without a score in its key, its circle (so the same fill
    opacity, 0.8, and the same tooltip, whose score field reads "N/A") and
    its label, and neither group holds a [<text>] percentage label; the
    groups differ in the child computed by line 131, which is the number 0
    for the score 0 and [undefined] for the absent score. *)
Theorem zero_score_rendered_as_absent (host : Host) (positions : PositionMap)
    (node : Node) (pos : Position) :
  Node.score node = Some 0%R →
  positions !! Node.id node = Some pos →
  ∃ g g',
    renderNode host positions node = Some g
    ∧ renderNode host positions (withoutScore node) = Some g'
    ∧ Group.key g = Group.key g'
    ∧ Group.circle g = Group.circle g'
    ∧ Group.labelText g = Group.labelText g'
    ∧ Circle.opacity (Group.circle g) = 0.8%R
    ∧ Circle.title (Group.circle g) =
        "Type: " +:+ NodeType_toString (Node.type node) +:+ LF
          +:+ "Score: N/A" +:+ LF
          +:+ "Last Run: " +:+ lastRunField host (Node.lastRun node)
    ∧ (∀ t, Group.scoreChild g ≠ ChildText t)
    ∧ (∀ t, Group.scoreChild g' ≠ ChildText t)
    ∧ Group.scoreChild g = ChildNumber 0
    ∧ Group.scoreChild g' = ChildUndefined.
Proof.
  intros Hscore Hpos. unfold renderNode.
  cbn [withoutScore Node.id Node.type Node.score Node.label Node.lastRun].
  rewrite Hpos. eexists _, _. split; [reflexivity|]. split; [reflexivity|].
  cbn [Group.key Group.circle Group.labelText Group.scoreChild
       Circle.opacity Circle.title].
  unfold nodeTooltip. cbn [Node.score Node.type Node.lastRun].
  rewrite Hscore, scoreField_zero, fillOpacity_zero, scoreLabel_zero.
  repeat split; done.
Qed.

Lemma zero_score_rendered_as_absent_witness :
  Node.score zeroScore = Some 0%R
  ∧ layout [zeroScore] !! Node.id zeroScore = Some (Position.mk 550 300)
  ∧ ∃ g g',
      renderNode placeholderHost (layout [zeroScore]) zeroScore = Some g
      ∧ renderNode placeholderHost (layout [zeroScore]) (withoutScore zeroScore) = Some g'
      ∧ Group.key g = Group.key g'
      ∧ Group.circle g = Group.circle g'
      ∧ Group.labelText g = Group.labelText g'
      ∧ Circle.opacity (Group.circle g) = 0.8%R
      ∧ Circle.title (Group.circle g) =
          "Type: " +:+ NodeType_toString (Node.type zeroScore) +:+ LF
            +:+ "Score: N/A" +:+ LF
            +:+ "Last Run: " +:+ lastRunField placeholderHost (Node.lastRun zeroScore)
      ∧ (∀ t, Group.scoreChild g ≠ ChildText t)
      ∧ (∀ t, Group.scoreChild g' ≠ ChildText t)
      ∧ Group.scoreChild g = ChildNumber 0
      ∧ Group.scoreChild g' = ChildUndefined.
Proof.
  split; [reflexivity|]. split; [apply layout_zeroScore|].
  apply (zero_score_rendered_as_absent placeholderHost (layout [zeroScore]) zeroScore
           (Position.mk 550 300)); [reflexivity | apply layout_zeroScore].
Defined.

(** ** Link encoding *)

Lemma renderLink_at host (positions : PositionMap) ns index link sourcePos targetPos :
  positions !! Link.source link = Some sourcePos →
  positions !! Link.target link = Some targetPos →
  renderLink host positions ns index link =
    Some {| Line.key := index;
            Line.x1 := Position.x sourcePos; Line.y1 := Position.y sourcePos;
            Line.x2 := Position.x targetPos; Line.y2 := Position.y targetPos;
            Line.stroke := "hsl(var(--primary))";
            Line.strokeWidth := Link.strength link * 5;
            Line.opacity := 1 - Link.drift link;
            Line.className := "animate-pulse";
            Line.title := linkTooltip host ns link |}.
Proof. intros Hs Ht. unfold renderLink. by rewrite Hs, Ht. Qed.

Lemma renderLink_Some host (positions : PositionMap) ns index link line :
  renderLink host positions ns index link = Some line →
  is_Some (positions !! Link.source link)
  ∧ is_Some (positions !! Link.target link)
  ∧ Line.strokeWidth line = (Link.strength link * 5)%R
  ∧ Line.opacity line = (1 - Link.drift link)%R.
Proof.
  unfold renderLink.
  destruct (positions !! Link.source link), (positions !! Link.target link);
    intros ?; simplify_eq/=; eauto.
Qed.

Lemma renderLink_None host (positions : PositionMap) ns index link :
  renderLink host positions ns index link = None ↔
  positions !! Link.source link = None ∨ positions !! Link.target link = None.
Proof.
  unfold renderLink.
  destruct (positions !! Link.source link), (positions !! Link.target link);
    intuition congruence.
Qed.

Lemma spec_clamp01_inside v : (0 <= v <= 1)%R → spec_clamp01 v = v.
Proof.
  intros [H0 H1]. unfold spec_clamp01.
  rewrite Rmin_right by done. by rewrite Rmax_right.
Qed.

Lemma spec_clamp01_below v : (v <= 0)%R → spec_clamp01 v = 0%R.
Proof.
  intros Hv. unfold spec_clamp01.
  rewrite Rmin_right by lra. by rewrite Rmax_left.
Qed.

Lemma layout_hubAndTwo_s1 : is_Some (layout hubAndTwo !! "s1").
Proof. by eexists. Qed.

(** C4, as stated, fails for a drift above 1: [fadedLink] has drift 2, every
    host draws its line with opacity 1 - 2 = -1, and the clamp to [0,1] of
    that value is 0. *)
Lemma overdrift_opacity_not_clamped :
  Link.drift fadedLink = 2%R
  ∧ (∀ host, ∃ line,
        renderLink host (layout hubAndTwo) hubAndTwo 0 fadedLink = Some line
        ∧ Line.opacity line = (-1)%R
        ∧ Line.opacity line ≠ spec_clamp01 (1 - Link.drift fadedLink))
  ∧ spec_clamp01 (1 - Link.drift fadedLink) = 0%R.
Proof.
  assert (Hc : spec_clamp01 (1 - Link.drift fadedLink) = 0%R).
  { apply spec_clamp01_below. cbn. lra. }
  split; [reflexivity|]. split; [|done].
  intros host.
  destruct layout_hubAndTwo_s1 as [targetPos Ht].
  eexists. split.
  - apply renderLink_at; [apply layout_agent | exact Ht].
  - rewrite Hc. cbn. split; lra.
Qed.

(** C4 (amended): for every rendered link the stroke width is strength × 5,
    a non-decreasing linear function of strength (0 at strength 0, 5 at
    strength 1, between them on [0,1]), and the opacity is exactly
    1 - drift; nothing is clamped, and the value agrees with its clamp to
    [0,1] when drift lies in [0,1]. *)
Theorem link_encoding (host : Host) (positions : PositionMap) (ns : list Node)
    (index index' : nat) (link link' : Link) (line line' : Line.t) :
  renderLink host positions ns index link = Some line →
  renderLink host positions ns index' link' = Some line' →
  Line.strokeWidth line = (5 * Link.strength link)%R
  ∧ ((Link.strength link <= Link.strength link')%R →
     (Line.strokeWidth line <= Line.strokeWidth line')%R)
  ∧ (Link.strength link = 0%R → Line.strokeWidth line = 0%R)
  ∧ (Link.strength link = 1%R → Line.strokeWidth line = 5%R)
  ∧ ((0 <= Link.strength link <= 1)%R → (0 <= Line.strokeWidth line <= 5)%R)
  ∧ Line.opacity line = (1 - Link.drift link)%R
  ∧ ((0 <= Link.drift link <= 1)%R →
     Line.opacity line = spec_clamp01 (1 - Link.drift link)
     ∧ (0 <= Line.opacity line <= 1)%R).
Proof.
  intros (_ & _ & Hw & Ho)%renderLink_Some (_ & _ & Hw' & _)%renderLink_Some.
  rewrite Hw, Hw', Ho. repeat split; try lra.
  rewrite spec_clamp01_inside; lra.
Qed.

Lemma layout_testPayload_output :
  layout (nodes testPayload) !! "output" = Some (Position.mk 550 300).
Proof.
  change (layout (nodes testPayload) !! "output") with (Some (slot 0 1)).
  unfold slot, angle, centerX, centerY, radius.
  replace (INR 0 / INR 1 * 2 * PI)%R with 0%R by (simpl; field).
  rewrite cos_0, sin_0. do 2 f_equal; lra.
Qed.

Lemma renderLink_testPayload :
  renderLink placeholderHost (layout (nodes testPayload)) (nodes testPayload) 0
             (Link.mk "agent" "output" 0.8 0.1) = Some testLine.
Proof.
  rewrite (renderLink_at _ _ _ _ _ (Position.mk 400 300) (Position.mk 550 300));
    [reflexivity | apply layout_agent | apply layout_testPayload_output].
Qed.

Lemma link_encoding_witness :
  Line.strokeWidth testLine = (5 * 0.8)%R
  ∧ Line.opacity testLine = (1 - 0.1)%R
  ∧ Line.opacity testLine = spec_clamp01 (1 - 0.1).
Proof.
  pose proof (link_encoding placeholderHost (layout (nodes testPayload))
                (nodes testPayload) 0 0 (Link.mk "agent" "output" 0.8 0.1)
                (Link.mk "agent" "output" 0.8 0.1) testLine testLine
                renderLink_testPayload renderLink_testPayload)
    as (Hw & _ & _ & _ & _ & Ho & Hc).
  split; [exact Hw|]. split; [exact Ho|].
  apply Hc. cbn. lra.
Defined.

(** ** Keys of the position map *)

Lemma forEach_set_is_Some len index l (m : PositionMap) k :
  is_Some (forEach_set len index l m !! k) ↔
  is_Some (m !! k) ∨ ∃ node, node ∈ l ∧ Node.id node = k.
Proof.
  revert index m. induction l as [|first rest IH]; intros index m; cbn [forEach_set].
  - split; [by left|]. intros [H|(node & Hin & _)]; [done|]. by apply elem_of_nil in Hin.
  - rewrite IH. split.
    + intros [Hm|(node & Hin & Hid)].
      * destruct (decide (Node.id first = k)) as [Heq|Hne].
        -- right. exists first. split; [left | done].
        -- left. by rewrite lookup_insert_ne in Hm.
      * right. exists node. split; [by right | done].
    + intros [Hm|(node & Hin & Hid)].
      * left. destruct (decide (Node.id first = k)) as [<-|Hne].
        -- rewrite lookup_insert_eq. by eexists.
        -- by rewrite lookup_insert_ne.
      * apply elem_of_cons in Hin as [->|Hin].
        -- left. rewrite <- Hid, lookup_insert_eq. by eexists.
        -- right. by exists node.
Qed.

Lemma layout_is_Some ns k : is_Some (layout ns !! k) ↔ resolves ns k.
Proof.
  unfold layout, resolves. rewrite forEach_set_is_Some. split.
  - intros [Hm|(node & Hin & Hid)].
    + left. destruct (decide (k = "agent")) as [->|Hne]; [done|].
      rewrite lookup_insert_ne, lookup_empty in Hm by done. by destruct Hm.
    + right. exists node. apply surroundingNodes_elem in Hin. tauto.
  - intros [->|(node & Hin & Hid)].
    + left. rewrite lookup_insert_eq. by eexists.
    + destruct (decide (k = "agent")) as [->|Hne].
      * left. rewrite lookup_insert_eq. by eexists.
      * right. exists node. split; [|done].
        apply surroundingNodes_elem. by rewrite Hid.
Qed.

Lemma layout_node ns node : node ∈ ns → is_Some (layout ns !! Node.id node).
Proof. intros Hin. apply layout_is_Some. right. by exists node. Qed.

(** ** The drawn scene *)

Lemma renderLink_key host (positions : PositionMap) ns index link line :
  renderLink host positions ns index link = Some line → Line.key line = index.
Proof.
  unfold renderLink.
  destruct (positions !! Link.source link), (positions !! Link.target link);
    intros ?; by simplify_eq/=.
Qed.

Lemma renderedLines_scene host d line :
  line ∈ renderedLines (scene host d) ↔
  ∃ index link, links d !! index = Some link
    ∧ renderLink host (layout (nodes d)) (nodes d) index link = Some line.
Proof.
  cbn. rewrite list_elem_of_omap. split.
  - intros (o & [index Hi]%list_elem_of_lookup & ->).
    rewrite list_lookup_imap in Hi.
    destruct (links d !! index) as [link|] eqn:Hl; [|done].
    exists index, link. split; [done|]. by injection Hi.
  - intros (index & link & Hl & Hr). exists (Some line). split; [|done].
    apply list_elem_of_lookup. exists index.
    by rewrite list_lookup_imap, Hl, <- Hr.
Qed.

Lemma renderedLines_drawn host d index link :
  links d !! index = Some link →
  (∃ line, line ∈ renderedLines (scene host d) ∧ Line.key line = index) ↔
  resolves (nodes d) (Link.source link) ∧ resolves (nodes d) (Link.target link).
Proof.
  intros Hl. rewrite <- !layout_is_Some. split.
  - intros (line & (index' & link' & Hl' & Hr)%renderedLines_scene & Hkey).
    apply renderLink_key in Hr as Hkey'. assert (index' = index) as -> by congruence.
    assert (link' = link) as -> by congruence.
    apply renderLink_Some in Hr. tauto.
  - intros [[sourcePos Hs] [targetPos Ht]].
    pose proof (renderLink_at host _ (nodes d) index link _ _ Hs Ht) as Hr.
    eexists. split.
    + apply renderedLines_scene. eauto.
    + reflexivity.
Qed.

Lemma omap_fmap_total {A B} (f : A → option B) (g : A → B) (l : list A) :
  (∀ a, a ∈ l → f a = Some (g a)) → omap (λ e, e) (f <$> l) = g <$> l.
Proof.
  induction l as [|a l IH]; intros Hf; [done|].
  cbn. rewrite (Hf a) by left. cbn. f_equal. apply IH.
  intros a' Hin. apply Hf. by right.
Qed.

Lemma renderedGroups_scene host d k node :
  nodes d !! k = Some node →
  ∃ g, renderedGroups (scene host d) !! k = Some g
       ∧ renderNode host (layout (nodes d)) node = Some g.
Proof.
  intros Hk. cbn.
  set (group := λ node, default (Group.mk "" (Circle.mk 0 0 0 "" 0 "")
                                   (Text.mk 0 0 "" "" "" "") ChildUndefined)
                          (renderNode host (layout (nodes d)) node)).
  assert (Hall : ∀ a, a ∈ nodes d →
            renderNode host (layout (nodes d)) a = Some (group a)).
  { intros a [pos Hpos]%layout_node. unfold group.
    destruct (renderNode_at host _ a pos Hpos) as (g & -> & _). done. }
  rewrite (omap_fmap_total _ group _ Hall), list_lookup_fmap, Hk.
  exists (group node). split; [done|].
  apply Hall. apply list_elem_of_lookup. eauto.
Qed.

Lemma resolves_noAgent_s1 : resolves (nodes noAgent) "s1".
Proof. right. eexists. split; [by left | reflexivity]. Qed.

Lemma not_resolves_ghost : ¬ resolves (nodes oneDangling) "ghost".
Proof.
  intros [Heq|(node & Hin & Hid)]; [done|].
  cbn in Hin. rewrite !elem_of_cons, elem_of_nil in Hin.
  destruct Hin as [->|[->|[]]]; done.
Qed.

(** C5, as stated, fails when the missing id is ["agent"]: in [noAgent] no
    node has that id, the only link starts there, and every host draws it. *)
Lemma link_from_missing_agent_drawn :
  links noAgent !! 0 = Some (Link.mk "agent" "s1" 0.8 0.1)
  ∧ (∀ node, node ∈ nodes noAgent → Node.id node ≠ "agent")
  ∧ (∀ host, ∃ line, line ∈ renderedLines (scene host noAgent) ∧ Line.key line = 0).
Proof.
  split; [reflexivity|]. split.
  - intros node Hin. cbn in Hin. rewrite elem_of_cons, elem_of_nil in Hin.
    destruct Hin as [->|[]]. done.
  - intros host. apply (renderedLines_drawn host noAgent 0 _ eq_refl).
    split; [by left | apply resolves_noAgent_s1].
Qed.

(** C5 (amended): a link one of whose endpoints is neither ["agent"] nor the
    id of a node of the payload is left out of the drawn lines; every other
    link is drawn, and so is every node. *)
Theorem dangling_links_dropped (host : Host) (d : ReliabilityMapData) :
  (∀ index link, links d !! index = Some link →
     (¬ resolves (nodes d) (Link.source link) ∨ ¬ resolves (nodes d) (Link.target link) →
      ¬ ∃ line, line ∈ renderedLines (scene host d) ∧ Line.key line = index)
     ∧ (resolves (nodes d) (Link.source link) → resolves (nodes d) (Link.target link) →
        ∃ line, line ∈ renderedLines (scene host d) ∧ Line.key line = index))
  ∧ (∀ k node, nodes d !! k = Some node →
       ∃ g, renderedGroups (scene host d) !! k = Some g ∧ Group.key g = Node.id node).
Proof.
  split.
  - intros index link Hl. rewrite (renderedLines_drawn host d index link Hl). tauto.
  - intros k node Hk.
    destruct (renderedGroups_scene host d k node Hk) as (g & Hg & Hr).
    exists g. split; [done|]. unfold renderNode in Hr.
    destruct (layout (nodes d) !! Node.id node); by simplify_eq/=.
Qed.

Lemma dangling_links_dropped_witness :
  links oneDangling !! 1 = Some (Link.mk "agent" "ghost" 0.5 0.5)
  ∧ ¬ resolves (nodes oneDangling) "ghost"
  ∧ ¬ ∃ line, line ∈ renderedLines (scene placeholderHost oneDangling)
              ∧ Line.key line = 1.
Proof.
  split; [reflexivity|]. split; [apply not_resolves_ghost|].
  apply (proj1 (proj1 (dangling_links_dropped placeholderHost oneDangling)
                  1 (Link.mk "agent" "ghost" 0.5 0.5) eq_refl)).
  right. apply not_resolves_ghost.
Defined.

(** C8, as stated, fails when the other endpoint is unknown: the link of
    [ghostTarget] has source ["agent"], and no host draws any line. *)
Lemma link_from_agent_to_ghost_dropped :
  links ghostTarget !! 0 = Some (Link.mk "agent" "ghost" 0.8 0.1)
  ∧ (∀ host, renderedLines (scene host ghostTarget) = []).
Proof. split; [reflexivity|]. intros host. reflexivity. Qed.

(** C8 (amended): for every payload, with or without a node of id ["agent"],
    the position map holds the key ["agent"] at exactly (400, 300); hence a
    link with ["agent"] at one end is drawn, from or to (400, 300), whenever
    its other end is ["agent"] or the id of a node of the payload. *)
Theorem agent_key_always_present (host : Host) (d : ReliabilityMapData) :
  layout (nodes d) !! "agent" = Some (Position.mk 400 300)
  ∧ ∀ index link, links d !! index = Some link →
      (Link.source link = "agent" ∧ resolves (nodes d) (Link.target link))
      ∨ (Link.target link = "agent" ∧ resolves (nodes d) (Link.source link)) →
      ∃ line, line ∈ renderedLines (scene host d) ∧ Line.key line = index
              ∧ (Link.source link = "agent" → Line.x1 line = 400%R ∧ Line.y1 line = 300%R)
              ∧ (Link.target link = "agent" → Line.x2 line = 400%R ∧ Line.y2 line = 300%R).
Proof.
  split; [apply layout_agent|].
  intros index link Hl Hends.
  assert (Hboth : resolves (nodes d) (Link.source link)
                  ∧ resolves (nodes d) (Link.target link)).
  { destruct Hends as [[-> Ht]|[-> Hs]]; (split; [by left | done]) || (split; [done | by left]). }
  destruct Hboth as [[sourcePos Hs]%layout_is_Some [targetPos Ht]%layout_is_Some].
  pose proof (renderLink_at host _ (nodes d) index link _ _ Hs Ht) as Hr.
  eexists. split; [apply renderedLines_scene; eauto|].
  cbn [Line.key Line.x1 Line.y1 Line.x2 Line.y2]. split; [done|].
  split; intros Heq; rewrite Heq, layout_agent in *; by simplify_eq/=.
Qed.

Lemma agent_key_always_present_witness :
  (∀ node, node ∈ nodes noAgent → Node.id node ≠ "agent")
  ∧ links noAgent !! 0 = Some (Link.mk "agent" "s1" 0.8 0.1)
  ∧ ∃ line, line ∈ renderedLines (scene placeholderHost noAgent) ∧ Line.key line = 0
            ∧ Line.x1 line = 400%R ∧ Line.y1 line = 300%R.
Proof.
  split.
  { intros node Hin. cbn in Hin. rewrite elem_of_cons, elem_of_nil in Hin.
    destruct Hin as [->|[]]. done. }
  split; [reflexivity|].
  destruct (proj2 (agent_key_always_present placeholderHost noAgent)
              0 (Link.mk "agent" "s1" 0.8 0.1) eq_refl
              (or_introl (conj eq_refl resolves_noAgent_s1)))
    as (line & Hin & Hkey & Hsrc & _).
  exists line. destruct (Hsrc eq_refl). done.
Defined.

(** ** The fetch hook and the view states *)

Lemma ok_false status : ok status = false ↔ status < 200 ∨ 299 < status.
Proof.
  unfold ok. rewrite andb_false_iff, !Nat.leb_gt. done.
Qed.

Lemma fetchData_resolved status result :
  ok status = true →
  fetchData (FetchResolves status (JsonResolves result)) initialState =
    {| data := result; loading := false; error := None |}.
Proof. intros Hok. unfold fetchData, tryBlock. by rewrite Hok. Qed.

Lemma fetchData_not_ok status json :
  ok status = false →
  fetchData (FetchResolves status json) initialState =
    {| data := None; loading := false;
       error := Some "Failed to fetch reliability map data" |}.
Proof. intros Hok. unfold fetchData, tryBlock. by rewrite Hok. Qed.

Lemma fetchData_rejected reason :
  fetchData (FetchRejects reason) initialState =
    {| data := None; loading := false; error := Some (surfaced reason) |}.
Proof. reflexivity. Qed.

Lemma mounted_resolved host status d :
  ok status = true →
  mounted host (FetchResolves status (JsonResolves (Some d))) = Returns (scene host d).
Proof.
  intros Hok. unfold mounted, useReliabilityMapData.
  by rewrite fetchData_resolved.
Qed.

Lemma mounted_failed host o message :
  fetchData o initialState =
    {| data := None; loading := false; error := Some message |} →
  mounted host o =
    Returns (if decide (message = "") then ViewEmpty else ViewError message).
Proof.
  intros Hst. unfold mounted, useReliabilityMapData. rewrite Hst. cbn.
  unfold ReliabilityMap. cbn. by destruct (decide (message = "")).
Qed.

(** C7, as stated, fails for a rejection whose message is the empty string:
    the hook surfaces "", which the component's [if (error)] takes for no
    error, and every host shows the Empty state. *)
Lemma empty_message_shows_empty :
  surfaced (ErrorInstance "") = ""
  ∧ error (useReliabilityMapData (Some (FetchRejects (ErrorInstance "")))) = Some ""
  ∧ (∀ host, mounted host (FetchRejects (ErrorInstance "")) = Returns ViewEmpty)
  ∧ ¬ ∃ host message,
        mounted host (FetchRejects (ErrorInstance "")) = Returns (ViewError message).
Proof. repeat split. by intros (host & message & H). Qed.

(** C7 (amended): after a response with a status outside 200-299 the view is
    in the Error state and shows exactly "Failed to fetch reliability map
    data"; after a rejection the hook surfaces the reason's message
    ("Unknown error" for a reason that is not an [Error]) and the view shows
    it verbatim in the Error state when it is not empty, and is in the Empty
    state when it is empty. *)
Theorem fetch_failure_view (host : Host) :
  (∀ status json, status < 200 ∨ 299 < status →
     error (useReliabilityMapData (Some (FetchResolves status json)))
       = Some "Failed to fetch reliability map data"
     ∧ mounted host (FetchResolves status json)
       = Returns (ViewError "Failed to fetch reliability map data"))
  ∧ (∀ reason,
       error (useReliabilityMapData (Some (FetchRejects reason))) = Some (surfaced reason)
       ∧ (surfaced reason ≠ "" →
          mounted host (FetchRejects reason) = Returns (ViewError (surfaced reason)))
       ∧ (surfaced reason = "" →
          mounted host (FetchRejects reason) = Returns ViewEmpty)).
Proof.
  split.
  - intros status json Hst%ok_false.
    pose proof (fetchData_not_ok status json Hst) as Hf.
    split; [cbn [useReliabilityMapData]; by rewrite Hf|].
    by rewrite (mounted_failed _ _ _ Hf).
  - intros reason. split; [done|].
    rewrite (mounted_failed host _ _ (fetchData_rejected reason)).
    split; intros H; [by rewrite decide_False | by rewrite decide_True].
Qed.

Lemma fetch_failure_view_witness :
  mounted placeholderHost (FetchResolves 500 (JsonResolves None))
    = Returns (ViewError "Failed to fetch reliability map data")
  ∧ mounted placeholderHost (FetchRejects (ErrorInstance "Failed to fetch"))
    = Returns (ViewError "Failed to fetch")
  ∧ mounted placeholderHost (FetchRejects NotAnError)
    = Returns (ViewError "Unknown error").
Proof.
  destruct (fetch_failure_view placeholderHost) as [Hstatus Hreject].
  split; [|split].
  - apply (Hstatus 500 (JsonResolves None)). right. lia.
  - apply (Hreject (ErrorInstance "Failed to fetch")). discriminate.
  - apply (Hreject NotAnError). discriminate.
Defined.

(** ** A payload without a centre node *)

(** C6, as stated, fails: [noAgent] has no node of id ["agent"], yet the
    layout effect returns normally, its map holds ["agent"] at (400, 300),
    and every host shows the graph, not an error. *)
Lemma missing_agent_not_signalled :
  (∀ node, node ∈ nodes noAgent → Node.id node ≠ "agent")
  ∧ layoutEffect (Some noAgent) ∅ = Returns (layout (nodes noAgent))
  ∧ (¬ ∃ e, layoutEffect (Some noAgent) ∅ = Throws e)
  ∧ layout (nodes noAgent) !! "agent" = Some (Position.mk 400 300)
  ∧ (∀ host, ∃ lines groups,
        mounted host (FetchResolves 200 (JsonResolves (Some noAgent)))
          = Returns (ViewReady lines groups)).
Proof.
  split.
  { intros node Hin. cbn in Hin. rewrite elem_of_cons, elem_of_nil in Hin.
    destruct Hin as [->|[]]. done. }
  split; [reflexivity|]. split; [by intros [e He]|].
  split; [apply layout_agent|].
  intros host. rewrite mounted_resolved by done. by eexists _, _.
Qed.

(** C6 (amended): for every payload with no node of id ["agent"], the layout
    pass signals nothing: the effect returns normally with a map that holds
    ["agent"] at the default centre (400, 300), and after a successful fetch
    the view is the graph. *)
Theorem missing_agent_defaults_silently (host : Host) (d : ReliabilityMapData)
    (positions : PositionMap) (status : nat) :
  (∀ node, node ∈ nodes d → Node.id node ≠ "agent") →
  ok status = true →
  layoutEffect (Some d) positions = Returns (layout (nodes d))
  ∧ layout (nodes d) !! "agent" = Some (Position.mk 400 300)
  ∧ ∃ lines groups,
      mounted host (FetchResolves status (JsonResolves (Some d)))
        = Returns (ViewReady lines groups).
Proof.
  intros _ Hok. split; [reflexivity|]. split; [apply layout_agent|].
  rewrite mounted_resolved by done. by eexists _, _.
Qed.

Lemma missing_agent_defaults_silently_witness :
  layoutEffect (Some noAgent) ∅ = Returns (layout (nodes noAgent))
  ∧ layout (nodes noAgent) !! "agent" = Some (Position.mk 400 300)
  ∧ ∃ lines groups,
      mounted placeholderHost (FetchResolves 200 (JsonResolves (Some noAgent)))
        = Returns (ViewReady lines groups).
Proof.
  apply (missing_agent_defaults_silently placeholderHost noAgent ∅ 200);
    [|reflexivity].
  intros node Hin. cbn in Hin. rewrite elem_of_cons, elem_of_nil in Hin.
  destruct Hin as [->|[]]. done.
Defined.

(** ** Repeated ids *)


Lemma layoutAfter_all ns : layoutAfter (length (surroundingNodes ns)) ns = layout ns.
Proof. unfold layoutAfter, layout. by rewrite firstn_all. Qed.


(** On a payload whose surrounding ids are pairwise distinct, every
    surrounding node is at the slot of its own index. *)
Lemma layout_radial_distinct ns i node :
  NoDup (Node.id <$> surroundingNodes ns) →
  surroundingNodes ns !! i = Some node →
  layout ns !! Node.id node = Some (slot i (length (surroundingNodes ns))).
Proof.
  intros Hnd Hi. unfold layout.
  apply (forEach_set_lookup_last _ 0 _ _ i); [done|].
  intros j later Hlt Hj Heq.
  assert (i = j); [|lia].
  apply (NoDup_lookup _ _ _ (Node.id node) Hnd);
    rewrite list_lookup_fmap; [by rewrite Hi | rewrite Hj; cbn; by rewrite Heq].
Qed.

(** ** The payload of the repository's test *)

Lemma toFixed0_small host v z :
  (0 <= v < 1000)%R → (IZR z - / 2 <= v < IZR z + / 2)%R →
  toFixed0 host v = pretty z.
Proof.
  intros [H0 Hlt] Hz. apply toFixed0_nearest; [done | | done].
  apply Rlt_le_trans with (10 ^ 3)%R; [simpl; lra|].
  apply Rle_pow; [lra | lia].
Qed.

(** A product in (0, 100] that is not within 2^-47 of a half-integer prints
    the integer nearest to it. *)
Lemma toFixed0_percent host v z :
  (0 < v <= 100)%R →
  (IZR z - / 2 + / 2 ^ 47 <= v < IZR z + / 2 - / 2 ^ 47)%R →
  toFixed0 host (binary64 v) = pretty z.
Proof.
  intros Hv Hz. destruct (binary64_percent v Hv) as [Hrange Hnear].
  apply Rabs_le_bounds in Hnear.
  apply toFixed0_small; lra.
Qed.

Example testPayload_link_title host :
  linkTooltip host (nodes testPayload) (Link.mk "agent" "output" 0.8 0.1) =
  "Connection: Active Agent â†’ Calculator Demo Suite" +:+ LF
    +:+ "Strength: 80%" +:+ LF +:+ "Drift: 10%".
Proof.
  unfold linkTooltip. cbn [Link.source Link.target Link.strength Link.drift].
  rewrite (toFixed0_percent host (0.8 * 100) 80) by (simpl; lra).
  rewrite (toFixed0_percent host (0.1 * 100) 10) by (simpl; lra).
  reflexivity.
Qed.

Example testPayload_agent_title host :
  nodeTooltip host (plainNode "agent" "Active Agent" agent (Some 0.85%R)) =
  "Type: agent" +:+ LF +:+ "Score: 85%" +:+ LF +:+ "Last Run: N/A".
Proof.
  unfold nodeTooltip. cbn [plainNode Node.type Node.score Node.lastRun].
  rewrite scoreField_nonzero by lra.
  rewrite (toFixed0_percent host (0.85 * 100) 85) by (simpl; lra).
  reflexivity.
Qed.

Example testPayload_agent_opacity :
  fillOpacity (Some 0.85%R) = 0.85%R.
Proof. apply fillOpacity_nonzero. lra. Qed.

(** ** Before and after the effect *)

Lemma layoutEffect_returns d positions :
  ∃ positions', layoutEffect d positions = Returns positions'.
Proof. destruct d; by eexists. Qed.

Lemma omap_imap_none {A B} (f : nat → A → option B) (l : list A) :
  (∀ i a, f i a = None) → omap (λ e, e) (imap f l) = [].
Proof.
  revert f. induction l as [|a l IH]; intros f Hf; [done|].
  cbn. rewrite Hf. apply IH. intros i a'. apply Hf.
Qed.

(** X20: until the layout effect has run the position map is the initial
    [new Map()], and with it no line and no node is drawn, whatever the hook
    returned. *)
Lemma empty_positions_draw_nothing host h :
  renderedLines (ReliabilityMap host h ∅) = []
  ∧ renderedGroups (ReliabilityMap host h ∅) = [].
Proof.
  assert (Hl : ∀ ns (ls : list Link),
             omap (λ e, e) (imap (renderLink host ∅ ns) ls) = []).
  { intros ns ls. apply omap_imap_none. intros i link.
    unfold renderLink. by rewrite lookup_empty. }
  assert (Hn : ∀ ns : list Node, omap (λ e, e) (renderNode host ∅ <$> ns) = []).
  { induction ns as [|n ns IH]; [done|].
    cbn. unfold renderNode at 1. by rewrite lookup_empty. }
  unfold ReliabilityMap. destruct (loading h); [done|].
  destruct (error h) as [e|]; [destruct (decide (e = ""))|];
    destruct (data h); cbn; try done; split; apply Hl || apply Hn.
Qed.

(** * Further properties *)

(** ** What the position map holds *)

Lemma forEach_set_lookup_Some len index l (m : PositionMap) k p :
  forEach_set len index l m !! k = Some p →
  m !! k = Some p
  ∨ ∃ j node, l !! j = Some node ∧ Node.id node = k ∧ p = slot (index + j) len.
Proof.
  revert index m. induction l as [|first rest IH]; intros index m; cbn [forEach_set].
  - by left.
  - intros [Hm|(j & node & Hj & Hid & ->)]%IH.
    + destruct (decide (Node.id first = k)) as [Heq|Hne].
      * rewrite Heq, lookup_insert_eq in Hm. injection Hm as <-.
        right. exists 0, first. rewrite Nat.add_0_r. done.
      * left. by rewrite lookup_insert_ne in Hm.
    + right. exists (S j), node. split; [done|]. split; [done|]. f_equal. lia.
Qed.

Lemma layout_lookup_Some ns k p :
  layout ns !! k = Some p →
  (k = "agent" ∧ p = Position.mk centerX centerY)
  ∨ (k ≠ "agent"
     ∧ ∃ j node, surroundingNodes ns !! j = Some node ∧ Node.id node = k
                 ∧ p = slot j (length (surroundingNodes ns))).
Proof.
  destruct (decide (k = "agent")) as [->|Hne].
  - rewrite layout_agent. intros [= <-]. by left.
  - unfold layout. intros [Hm|(j & node & Hj & Hid & ->)]%forEach_set_lookup_Some.
    + by rewrite lookup_insert_ne, lookup_empty in Hm.
    + right. split; [done|]. by exists j, node.
Qed.

(** X1: the keys of the position map are exactly ["agent"] and the ids of
    the nodes. *)
Theorem layout_keys (ns : list Node) :
  dom (layout ns) = ({["agent"]} ∪ list_to_set (Node.id <$> ns) : gset string).
Proof.
  apply set_eq. intros k.
  rewrite elem_of_dom, layout_is_Some, elem_of_union, elem_of_singleton,
    elem_of_list_to_set, list_elem_of_fmap.
  unfold resolves. split.
  - intros [->|(node & Hin & <-)]; [by left | right; by exists node].
  - intros [->|(node & -> & Hin)]; [by left | right; by exists node].
Qed.

Lemma forEach_set_ids len index l l' (m : PositionMap) :
  Node.id <$> l = Node.id <$> l' →
  forEach_set len index l m = forEach_set len index l' m.
Proof.
  revert index m l'. induction l as [|a l IH]; intros index m [|a' l'] Hids;
    try done.
  cbn in Hids. injection Hids as Ha Hl. cbn [forEach_set]. rewrite Ha. by apply IH.
Qed.

Lemma surroundingNodes_ids ns ns' :
  Node.id <$> ns = Node.id <$> ns' →
  Node.id <$> surroundingNodes ns = Node.id <$> surroundingNodes ns'.
Proof.
  revert ns'. induction ns as [|a ns IH]; intros [|a' ns'] Hids; try done.
  cbn in Hids. injection Hids as Ha Hl. unfold surroundingNodes.
  rewrite !filter_cons, Ha.
  destruct (decide (Node.id a' ≠ "agent")); cbn; [rewrite Ha; f_equal|]; by apply IH.
Qed.

(** X2: the layout reads nothing of a node but its id: two node lists with
    the same ids in the same order get the same position map, whatever
    their labels, types, scores and dates. *)
Theorem layout_reads_ids_only (ns ns' : list Node) :
  Node.id <$> ns = Node.id <$> ns' → layout ns = layout ns'.
Proof.
  intros Hids%surroundingNodes_ids. unfold layout.
  assert (Hlen : length (surroundingNodes ns) = length (surroundingNodes ns')).
  { by rewrite <- (length_fmap Node.id), Hids, length_fmap. }
  rewrite Hlen. by apply forEach_set_ids.
Qed.

Lemma layout_reads_ids_only_witness :
  Node.id <$> nodes noAgent = Node.id <$> [zeroScore]
  ∧ layout (nodes noAgent) = layout [zeroScore].
Proof.
  split; [reflexivity|].
  apply (layout_reads_ids_only (nodes noAgent) [zeroScore]). reflexivity.
Defined.

(** X3: a node whose id is ["agent"] takes no part in the placement: where
    it stands in the input, or whether it is there at all, moves no node. *)
Theorem agent_node_position_irrelevant (before after : list Node) (hub : Node) :
  Node.id hub = "agent" →
  layout (before ++ hub :: after) = layout (before ++ after).
Proof.
  intros Hid. unfold layout, surroundingNodes.
  rewrite !filter_app, filter_cons_False; [done|]. by intros ?.
Qed.

Lemma agent_node_position_irrelevant_witness :
  layout hubAndTwo
  = layout [plainNode "s1" "Suite one" suite (Some 0.8%R);
            plainNode "s2" "Suite two" suite None].
Proof.
  apply (agent_node_position_irrelevant
           [plainNode "s1" "Suite one" suite (Some 0.8%R)]
           [plainNode "s2" "Suite two" suite None]
           (plainNode "agent" "Active Agent" agent (Some 0.85%R))).
  reflexivity.
Defined.

(** ** Geometry of the slots *)

Lemma slot_on_circle index len :
  ((Position.x (slot index len) - 400) ^ 2 + (Position.y (slot index len) - 300) ^ 2
   = 150 ^ 2)%R.
Proof.
  unfold slot, centerX, centerY, radius. cbn [Position.x Position.y].
  pose proof (sin2_cos2 (angle index len)) as H. unfold Rsqr in H. nra.
Qed.

Lemma slot_in_box index len :
  (250 <= Position.x (slot index len) <= 550)%R
  ∧ (150 <= Position.y (slot index len) <= 450)%R.
Proof.
  unfold slot, centerX, centerY, radius. cbn [Position.x Position.y].
  pose proof (COS_bound (angle index len)). pose proof (SIN_bound (angle index len)).
  lra.
Qed.

(** X4: every position the layout assigns to a key other than ["agent"]
    lies on the circle of radius 150 around (400, 300), whatever the ids
    and however many nodes there are. *)
Theorem layout_on_circle (ns : list Node) (k : string) (p : Position) :
  k ≠ "agent" →
  layout ns !! k = Some p →
  ((Position.x p - 400) ^ 2 + (Position.y p - 300) ^ 2 = 150 ^ 2)%R.
Proof.
  intros Hne [[? _]|(_ & j & node & _ & _ & ->)]%layout_lookup_Some; [done|].
  apply slot_on_circle.
Qed.

Lemma layout_on_circle_witness :
  layout twins !! "s1" = Some (slot 1 2)
  ∧ ((Position.x (slot 1 2) - 400) ^ 2 + (Position.y (slot 1 2) - 300) ^ 2
     = 150 ^ 2)%R.
Proof.
  split; [reflexivity|].
  apply (layout_on_circle twins "s1" (slot 1 2)); [discriminate | reflexivity].
Defined.

Lemma angle_range index len :
  index < len → (0 <= angle index len < 2 * PI)%R.
Proof.
  intros Hlt. unfold angle.
  assert (Hn : (0 < INR len)%R) by (apply lt_0_INR; lia).
  assert (Hi : (0 <= INR index)%R) by apply pos_INR.
  assert (Hin : (INR index < INR len)%R) by (by apply lt_INR).
  pose proof PI_RGT_0 as Hpi.
  assert (Hq : (0 <= INR index / INR len < 1)%R).
  { split.
    - apply Rmult_le_pos; [done|]. left. by apply Rinv_0_lt_compat.
    - apply (Rmult_lt_reg_r (INR len)); [done|].
      unfold Rdiv. rewrite Rmult_assoc, Rinv_l, Rmult_1_r, Rmult_1_l; [done|lra]. }
  split; nra.
Qed.

(** X5: the surrounding nodes are evenly spaced: for every count the first
    is at angle 0, with at least one node each next one is 2π/n further,
    and the angle of every index below the count lies in [0, 2π). *)
Theorem slots_evenly_spaced (index len : nat) :
  angle 0 len = 0%R
  ∧ (0 < len → (angle (S index) len - angle index len = 2 * PI / INR len)%R)
  ∧ (index < len → (0 <= angle index len < 2 * PI)%R).
Proof.
  split; [|split].
  - unfold angle, Rdiv. cbn [INR]. ring.
  - intros Hlen. assert (Hn : INR len ≠ 0%R) by (apply not_0_INR; lia).
    unfold angle. rewrite S_INR. by field.
  - apply angle_range.
Qed.

Lemma slots_evenly_spaced_witness :
  angle 0 1 = 0%R
  ∧ (0 <= angle 0 1 < 2 * PI)%R
  ∧ (angle 3 4 - angle 2 4 = 2 * PI / INR 4)%R
  ∧ (0 <= angle 3 4 < 2 * PI)%R.
Proof.
  destruct (slots_evenly_spaced 0 1) as (Hzero & _ & Hrange).
  destruct (slots_evenly_spaced 2 4) as (_ & Hstep & _).
  destruct (slots_evenly_spaced 3 4) as (_ & _ & Hrange').
  split; [exact Hzero|]. split; [apply Hrange; lia|].
  split; [apply Hstep; lia | apply Hrange'; lia].
Defined.

Lemma cos_one_only_at_zero δ : (0 < δ < 2 * PI)%R → cos δ ≠ 1%R.
Proof.
  intros [H0 H2] Hc. pose proof PI_RGT_0 as Hpi.
  destruct (Rle_dec δ PI) as [Hle|Hgt].
  - pose proof (cos_decreasing_1 0 δ) as Hd. rewrite cos_0 in Hd. lra.
  - assert (Hsym : cos (2 * PI - δ) = cos δ).
    { replace (2 * PI - δ)%R with (- δ + 2 * INR 1 * PI)%R by (cbn [INR]; ring).
      by rewrite cos_period, cos_neg. }
    pose proof (cos_decreasing_1 0 (2 * PI - δ)) as Hd.
    rewrite cos_0, Hsym in Hd. lra.
Qed.

Lemma slot_injective i j len :
  i < len → j < len → slot i len = slot j len → i = j.
Proof.
  assert (Hmain : ∀ a b, a < b → b < len → slot a len ≠ slot b len).
  { intros a b Hab Hb Heq.
    assert (Hxy : cos (angle a len) = cos (angle b len)
                  ∧ sin (angle a len) = sin (angle b len)).
    { unfold slot, centerX, centerY, radius in Heq. injection Heq as Hx Hy. lra. }
    destruct Hxy as [Hc Hs].
    apply (cos_one_only_at_zero (angle b len - angle a len)).
    - pose proof (angle_range a len ltac:(lia)). pose proof (angle_range b len Hb).
      split; [|lra].
      unfold angle. pose proof PI_RGT_0.
      assert (Hn : (0 < INR len)%R) by (apply lt_0_INR; lia).
      assert (INR a < INR b)%R by (by apply lt_INR).
      assert (INR a / INR len < INR b / INR len)%R.
      { unfold Rdiv. apply Rmult_lt_compat_r; [by apply Rinv_0_lt_compat | done]. }
      nra.
    - rewrite cos_minus, <- Hc, <- Hs.
      pose proof (sin2_cos2 (angle a len)) as H. unfold Rsqr in H. lra. }
  intros Hi Hj Heq. destruct (Nat.lt_trichotomy i j) as [Hlt|[->|Hgt]]; [|done|].
  - by destruct (Hmain i j Hlt Hj).
  - by destruct (Hmain j i Hgt Hi).
Qed.

(** X6: when the surrounding ids are pairwise distinct, no two surrounding
    nodes are placed on the same point. *)
Theorem distinct_ids_distinct_positions (ns : list Node) (i j : nat) (a b : Node) :
  NoDup (Node.id <$> surroundingNodes ns) →
  surroundingNodes ns !! i = Some a →
  surroundingNodes ns !! j = Some b →
  i ≠ j →
  layout ns !! Node.id a ≠ layout ns !! Node.id b.
Proof.
  intros Hnd Hi Hj Hne.
  rewrite (layout_radial_distinct ns i a Hnd Hi), (layout_radial_distinct ns j b Hnd Hj).
  intros Heq%(inj Some). apply Hne.
  apply (slot_injective i j (length (surroundingNodes ns)));
    [by apply lookup_lt_Some in Hi | by apply lookup_lt_Some in Hj | done].
Qed.

Lemma distinct_ids_distinct_positions_witness :
  NoDup (Node.id <$> surroundingNodes hubAndTwo)
  ∧ layout hubAndTwo !! "s1" ≠ layout hubAndTwo !! "s2".
Proof.
  assert (Hnd : NoDup (Node.id <$> surroundingNodes hubAndTwo)).
  { change (NoDup ["s1"; "s2"]). apply NoDup_cons. split.
    - rewrite elem_of_cons, elem_of_nil. by intros [|].
    - apply NoDup_singleton. }
  split; [exact Hnd|].
  apply (distinct_ids_distinct_positions hubAndTwo 0 1
           (plainNode "s1" "Suite one" suite (Some 0.8%R))
           (plainNode "s2" "Suite two" suite None) Hnd);
    [reflexivity | reflexivity | lia].
Defined.

(** ** Repeated ids, slot by slot *)

Lemma slot_polar index len : slot index len = polar (INR index / INR len * 2 * PI).
Proof. reflexivity. Qed.






(** ** The drawn nodes and lines together *)

Lemma renderedGroups_elem host d g :
  g ∈ renderedGroups (scene host d) ↔
  ∃ node, node ∈ nodes d ∧ renderNode host (layout (nodes d)) node = Some g.
Proof.
  cbn. rewrite list_elem_of_omap. split.
  - intros (o & (node & -> & Hin)%list_elem_of_fmap & Hg). by exists node.
  - intros (node & Hin & Hg). exists (Some g). split; [|done].
    apply list_elem_of_fmap. by exists node.
Qed.

Lemma renderNode_Some host (positions : PositionMap) node g :
  renderNode host positions node = Some g →
  ∃ pos, positions !! Node.id node = Some pos
    ∧ Group.key g = Node.id node
    ∧ Circle.cx (Group.circle g) = Position.x pos
    ∧ Circle.cy (Group.circle g) = Position.y pos
    ∧ (Circle.r (Group.circle g) = 20%R ∨ Circle.r (Group.circle g) = 15%R)
    ∧ Text.y (Group.labelText g) = (Position.y pos + Circle.r (Group.circle g) + 15)%R
    ∧ ∀ t, Group.scoreChild g = ChildText t →
           Text.y t = (Position.y pos - Circle.r (Group.circle g) - 5)%R.
Proof.
  unfold renderNode. destruct (positions !! Node.id node) as [pos|]; [|done].
  intros [= <-]. exists pos. cbn. repeat split; try done.
  - destruct (Node.type node); auto.
  - intros t. unfold scoreLabel. destruct (Node.score node) as [v|]; [|done].
    destruct (decide (v = 0%R)); [done|]. by intros [= <-].
Qed.

Lemma layout_in_box ns k p :
  layout ns !! k = Some p →
  (250 <= Position.x p <= 550)%R ∧ (150 <= Position.y p <= 450)%R.
Proof.
  intros [[_ ->]|(_ & j & node & _ & _ & ->)]%layout_lookup_Some.
  - unfold centerX, centerY. cbn. lra.
  - apply slot_in_box.
Qed.

(** X7: everything drawn for a node lies inside the 800 × 600 drawing
    surface: the whole circle, the baseline of the label below it and the
    baseline of the percentage above it. *)
Theorem nodes_inside_svg (host : Host) (d : ReliabilityMapData) (g : Group.t) :
  g ∈ renderedGroups (scene host d) →
  (0 <= Circle.cx (Group.circle g) - Circle.r (Group.circle g))%R
  ∧ (Circle.cx (Group.circle g) + Circle.r (Group.circle g) <= svgWidth)%R
  ∧ (0 <= Circle.cy (Group.circle g) - Circle.r (Group.circle g))%R
  ∧ (Circle.cy (Group.circle g) + Circle.r (Group.circle g) <= svgHeight)%R
  ∧ (0 <= Text.y (Group.labelText g) <= svgHeight)%R
  ∧ ∀ t, Group.scoreChild g = ChildText t → (0 <= Text.y t <= svgHeight)%R.
Proof.
  intros (node & _ & Hg)%renderedGroups_elem.
  apply renderNode_Some in Hg as (pos & Hpos & _ & Hcx & Hcy & Hr & Hlabel & Hscore).
  apply layout_in_box in Hpos as [Hx Hy].
  unfold svgWidth, svgHeight. rewrite Hcx, Hcy, Hlabel.
  do 5 (split; [destruct Hr as [-> | ->]; lra|]).
  intros t Ht. rewrite (Hscore t Ht). destruct Hr as [-> | ->]; lra.
Qed.

Lemma testPayload_agent_group :
  ∃ g, g ∈ renderedGroups (scene placeholderHost testPayload)
       ∧ Group.key g = "agent".
Proof.
  destruct (renderedGroups_scene placeholderHost testPayload 0 _ eq_refl)
    as (g & Hg & Hr).
  exists g. split; [by apply list_elem_of_lookup; exists 0|].
  by apply renderNode_Some in Hr as (_ & _ & -> & _).
Qed.

Lemma nodes_inside_svg_witness :
  ∃ g, g ∈ renderedGroups (scene placeholderHost testPayload)
       ∧ (0 <= Circle.cx (Group.circle g) - Circle.r (Group.circle g))%R
       ∧ (Circle.cx (Group.circle g) + Circle.r (Group.circle g) <= svgWidth)%R
       ∧ (0 <= Circle.cy (Group.circle g) - Circle.r (Group.circle g))%R
       ∧ (Circle.cy (Group.circle g) + Circle.r (Group.circle g) <= svgHeight)%R.
Proof.
  destruct testPayload_agent_group as (g & Hin & _).
  exists g. split; [exact Hin|].
  destruct (nodes_inside_svg placeholderHost testPayload g Hin)
    as (H1 & H2 & H3 & H4 & _).
  done.
Defined.

Lemma renderLink_ends host (positions : PositionMap) ns index link line :
  renderLink host positions ns index link = Some line →
  positions !! Link.source link
    = Some (Position.mk (Line.x1 line) (Line.y1 line))
  ∧ positions !! Link.target link
    = Some (Position.mk (Line.x2 line) (Line.y2 line)).
Proof.
  unfold renderLink.
  destruct (positions !! Link.source link) as [[]|],
           (positions !! Link.target link) as [[]|];
    intros ?; by simplify_eq/=.
Qed.

Lemma renderedLines_link host d line :
  line ∈ renderedLines (scene host d) →
  ∃ link, links d !! Line.key line = Some link
    ∧ renderLink host (layout (nodes d)) (nodes d) (Line.key line) link = Some line.
Proof.
  intros (index & link & Hl & Hr)%renderedLines_scene.
  rewrite (renderLink_key _ _ _ _ _ _ Hr). by exists link.
Qed.

(** X8: lines end at node centres: a drawn line starts at the centre of
    every circle drawn for its source id and stops at the centre of every
    circle drawn for its target id. *)
Theorem lines_join_circle_centres (host : Host) (d : ReliabilityMapData)
    (line : Line.t) (link : Link) (g : Group.t) :
  line ∈ renderedLines (scene host d) →
  links d !! Line.key line = Some link →
  g ∈ renderedGroups (scene host d) →
  (Group.key g = Link.source link →
   Line.x1 line = Circle.cx (Group.circle g) ∧ Line.y1 line = Circle.cy (Group.circle g))
  ∧ (Group.key g = Link.target link →
     Line.x2 line = Circle.cx (Group.circle g) ∧ Line.y2 line = Circle.cy (Group.circle g)).
Proof.
  intros (link' & Hl' & Hr)%renderedLines_link Hl (node & _ & Hg)%renderedGroups_elem.
  assert (link' = link) as -> by congruence.
  apply renderLink_ends in Hr as [Hs Ht].
  apply renderNode_Some in Hg as (pos & Hpos & Hkey & -> & -> & _).
  rewrite Hkey. split; intros Heq; rewrite Heq in Hpos;
    [rewrite Hs in Hpos | rewrite Ht in Hpos]; by simplify_eq/=.
Qed.

Lemma testPayload_line :
  ∃ line, line ∈ renderedLines (scene placeholderHost testPayload)
          ∧ Line.key line = 0.
Proof.
  apply (renderedLines_drawn placeholderHost testPayload 0 _ eq_refl).
  split; [by left|]. right. eexists. split; [right; left | reflexivity].
Qed.

Lemma lines_join_circle_centres_witness :
  ∃ line g,
    line ∈ renderedLines (scene placeholderHost testPayload)
    ∧ g ∈ renderedGroups (scene placeholderHost testPayload)
    ∧ Group.key g = "agent"
    ∧ Line.x1 line = Circle.cx (Group.circle g)
    ∧ Line.y1 line = Circle.cy (Group.circle g).
Proof.
  destruct testPayload_line as (line & Hline & Hkey).
  destruct testPayload_agent_group as (g & Hg & Hgkey).
  exists line, g. split; [exact Hline|]. split; [exact Hg|]. split; [exact Hgkey|].
  apply (proj1 (lines_join_circle_centres placeholderHost testPayload line
                  (Link.mk "agent" "output" 0.8 0.1) g Hline
                  ltac:(by rewrite Hkey) Hg)).
  exact Hgkey.
Defined.

(** X9: every drawn line between ["agent"] and another id is a spoke of
    length 150, the radius of the layout. *)
Theorem spokes_have_radius_length (host : Host) (d : ReliabilityMapData)
    (line : Line.t) (link : Link) :
  line ∈ renderedLines (scene host d) →
  links d !! Line.key line = Some link →
  (Link.source link = "agent" ∧ Link.target link ≠ "agent")
  ∨ (Link.target link = "agent" ∧ Link.source link ≠ "agent") →
  ((Line.x2 line - Line.x1 line) ^ 2 + (Line.y2 line - Line.y1 line) ^ 2 = 150 ^ 2)%R.
Proof.
  intros (link' & Hl' & Hr)%renderedLines_link Hl Hends.
  assert (link' = link) as -> by congruence.
  apply renderLink_ends in Hr as [Hs Ht].
  destruct Hends as [[Heq Hne]|[Heq Hne]].
  - rewrite Heq, layout_agent in Hs. injection Hs as Hx Hy.
    destruct (layout_lookup_Some _ _ _ Ht) as [[? _]|(_ & j & node & _ & _ & Hp)];
      [done|].
    pose proof (slot_on_circle j (length (surroundingNodes (nodes d)))) as Hc.
    rewrite <- Hp in Hc. cbn [Position.x Position.y] in Hc.
    unfold centerX in Hx. unfold centerY in Hy. rewrite <- Hx, <- Hy. exact Hc.
  - rewrite Heq, layout_agent in Ht. injection Ht as Hx Hy.
    destruct (layout_lookup_Some _ _ _ Hs) as [[? _]|(_ & j & node & _ & _ & Hp)];
      [done|].
    pose proof (slot_on_circle j (length (surroundingNodes (nodes d)))) as Hc.
    rewrite <- Hp in Hc. cbn [Position.x Position.y] in Hc.
    unfold centerX in Hx. unfold centerY in Hy. rewrite <- Hx, <- Hy. lra.
Qed.

Lemma spokes_have_radius_length_witness :
  ∃ line, line ∈ renderedLines (scene placeholderHost testPayload)
    ∧ ((Line.x2 line - Line.x1 line) ^ 2 + (Line.y2 line - Line.y1 line) ^ 2
       = 150 ^ 2)%R.
Proof.
  destruct testPayload_line as (line & Hline & Hkey).
  exists line. split; [exact Hline|].
  apply (spokes_have_radius_length placeholderHost testPayload line
           (Link.mk "agent" "output" 0.8 0.1) Hline ltac:(by rewrite Hkey)).
  left. split; [reflexivity | discriminate].
Defined.

(** ** React keys *)

Lemma omap_imap_keys {A B} (key : B → nat) (f : nat → A → option B)
    (l : list A) (offset : nat) :
  (∀ i a b, f i a = Some b → key b = offset + i) →
  StronglySorted lt (key <$> omap (λ e, e) (imap f l))
  ∧ Forall (λ k, offset ≤ k < offset + length l) (key <$> omap (λ e, e) (imap f l)).
Proof.
  revert f offset. induction l as [|a l IH]; intros f offset Hkey.
  - split; constructor.
  - destruct (IH (f ∘ S) (S offset)) as [Hsorted Hall].
    { intros i a' b Hb. rewrite (Hkey (S i) a' b Hb). lia. }
    cbn [imap omap]. destruct (f 0 a) as [b|] eqn:Hb; cbn.
    + rewrite (Hkey 0 a b Hb), Nat.add_0_r. split.
      * constructor; [done|]. eapply Forall_impl; [exact Hall|]. cbn. lia.
      * constructor; [lia|]. eapply Forall_impl; [exact Hall|]. cbn. lia.
    + split; [done|]. eapply Forall_impl; [exact Hall|]. cbn. lia.
Qed.

(** X10: the keys of the drawn lines are strictly increasing, hence
    pairwise distinct, and each is the index of a link of the payload,
    also when links in between were dropped. *)
Theorem line_keys_increasing (host : Host) (d : ReliabilityMapData) :
  StronglySorted lt (Line.key <$> renderedLines (scene host d))
  ∧ Forall (λ k, k < length (links d)) (Line.key <$> renderedLines (scene host d)).
Proof.
  destruct (omap_imap_keys Line.key (renderLink host (layout (nodes d)) (nodes d))
              (links d) 0) as [Hsorted Hall].
  { intros i link line Hr. by apply renderLink_key in Hr. }
  split; [exact Hsorted|]. eapply Forall_impl; [exact Hall|]. cbn. lia.
Qed.

Lemma omap_length_le {A B} (f : A → option B) (l : list A) :
  length (omap f l) ≤ length l.
Proof. induction l as [|a l IH]; [done|]. cbn. destruct (f a); cbn; lia. Qed.

(** X11: there is exactly one drawn group per node, in input order, and its
    key is the node's id; so the keys are pairwise distinct exactly when
    the ids are. *)
Theorem group_keys_are_node_ids (host : Host) (d : ReliabilityMapData) :
  Group.key <$> renderedGroups (scene host d) = Node.id <$> nodes d
  ∧ (NoDup (Group.key <$> renderedGroups (scene host d))
     ↔ NoDup (Node.id <$> nodes d)).
Proof.
  assert (Heq : Group.key <$> renderedGroups (scene host d) = Node.id <$> nodes d).
  { apply list_eq. intros k. rewrite !list_lookup_fmap.
    destruct (nodes d !! k) as [node|] eqn:Hk.
    - destruct (renderedGroups_scene host d k node Hk) as (g & Hg & Hr).
      rewrite Hg. cbn. by apply renderNode_Some in Hr as (_ & _ & -> & _).
    - assert (Hnone : renderedGroups (scene host d) !! k = None).
      { apply lookup_ge_None. apply lookup_ge_None in Hk.
        etrans; [|exact Hk]. etrans; [apply omap_length_le|].
        by rewrite length_fmap. }
      by rewrite Hnone. }
  split; [exact Heq|]. by rewrite Heq.
Qed.

(** ** Tooltips and labels *)

Lemma labelOr_first ns id p first :
  ns !! p = Some first →
  Node.id first = id →
  (∀ q m, q < p → ns !! q = Some m → Node.id m ≠ id) →
  labelOr ns id = string_or (Node.label first) id.
Proof.
  unfold labelOr. revert p. induction ns as [|a ns IH]; intros p Hp Hid Hfirst; [done|].
  cbn [find]. destruct p as [|p].
  - injection Hp as ->. by rewrite bool_decide_eq_true_2.
  - rewrite bool_decide_eq_false_2 by (apply (Hfirst 0 a); [lia | done]).
    apply (IH p); [done | done |].
    intros q m Hq Hm. apply (Hfirst (S q) m); [lia | done].
Qed.

Lemma labelOr_missing ns id :
  (∀ m, m ∈ ns → Node.id m ≠ id) → labelOr ns id = id.
Proof.
  unfold labelOr. induction ns as [|a ns IH]; intros Hall; [done|].
  cbn [find]. rewrite bool_decide_eq_false_2 by (apply Hall; left).
  apply IH. intros m Hm. apply Hall. by right.
Qed.

Lemma renderLink_title host (positions : PositionMap) ns index link line :
  renderLink host positions ns index link = Some line →
  Line.title line = linkTooltip host ns link.
Proof.
  unfold renderLink.
  destruct (positions !! Link.source link), (positions !! Link.target link);
    intros ?; by simplify_eq/=.
Qed.

(** X12: when the target id of a link occurs several times, the tooltip and
    the line disagree about the node meant: the tooltip names the label of
    the first node with that id, the line ends at the slot of the last one,
    which is not the slot of any other index. The source is named the same
    way: by the label of the first node with its id when that label is not
    empty, by the raw id when no node carries it. *)
Theorem tooltip_names_first_line_reaches_last (host : Host) (d : ReliabilityMapData)
    (index : nat) (link : Link) (line : Line.t)
    (p k : nat) (first last : Node) :
  renderLink host (layout (nodes d)) (nodes d) index link = Some line →
  nodes d !! p = Some first →
  Node.id first = Link.target link →
  (∀ q m, q < p → nodes d !! q = Some m → Node.id m ≠ Link.target link) →
  Node.label first ≠ "" →
  Link.target link ≠ "agent" →
  surroundingNodes (nodes d) !! k = Some last →
  Node.id last = Link.target link →
  (∀ k' later, k < k' → surroundingNodes (nodes d) !! k' = Some later →
               Node.id later ≠ Link.target link) →
  Line.title line =
    "Connection: " +:+ labelOr (nodes d) (Link.source link) +:+ " â†’ "
      +:+ Node.label first +:+ LF
      +:+ "Strength: " +:+ toFixed0 host (binary64 (Link.strength link * 100))
      +:+ "%" +:+ LF
      +:+ "Drift: " +:+ toFixed0 host (binary64 (Link.drift link * 100)) +:+ "%"
  ∧ Position.mk (Line.x2 line) (Line.y2 line)
    = polar (INR k / INR (length (surroundingNodes (nodes d))) * 2 * PI)
  ∧ (∀ i, i < length (surroundingNodes (nodes d)) → i ≠ k →
       polar (INR i / INR (length (surroundingNodes (nodes d))) * 2 * PI)
       ≠ Position.mk (Line.x2 line) (Line.y2 line))
  ∧ (∀ q named, nodes d !! q = Some named → Node.id named = Link.source link →
       (∀ q' m, q' < q → nodes d !! q' = Some m → Node.id m ≠ Link.source link) →
       Node.label named ≠ "" →
       labelOr (nodes d) (Link.source link) = Node.label named)
  ∧ ((∀ m, m ∈ nodes d → Node.id m ≠ Link.source link) →
     labelOr (nodes d) (Link.source link) = Link.source link).
Proof.
  intros Hr Hp Hid Hfirst Hlabel Hne Hk Hlastid Hlast.
  pose proof (renderLink_title _ _ _ _ _ _ Hr) as Htitle.
  apply renderLink_ends in Hr as [_ Ht].
  assert (Hend : Position.mk (Line.x2 line) (Line.y2 line)
                 = slot k (length (surroundingNodes (nodes d)))).
  { rewrite <- Hlastid in Ht.
    assert (Hmap : layout (nodes d) !! Node.id last
                   = Some (slot k (length (surroundingNodes (nodes d))))).
    { unfold layout. apply (forEach_set_lookup_last _ 0 _ _ k); [done|].
      intros k' later Hlt Hk'. rewrite Hlastid. by apply (Hlast k'). }
    rewrite Hmap in Ht. apply (inj Some) in Ht. by symmetry. }
  split; [|split; [|split; [|split]]].
  - rewrite Htitle. unfold linkTooltip.
    rewrite (labelOr_first _ (Link.target link) p first Hp Hid Hfirst).
    unfold string_or. by rewrite decide_False.
  - by rewrite Hend, slot_polar.
  - intros i Hi Hik Heq. apply Hik.
    apply (slot_injective i k (length (surroundingNodes (nodes d))));
      [done | by apply lookup_lt_Some in Hk |].
    by rewrite slot_polar, Heq, Hend.
  - intros q named Hq Hqid Hqfirst Hqlabel.
    rewrite (labelOr_first _ _ q named Hq Hqid Hqfirst).
    unfold string_or. by rewrite decide_False.
  - apply labelOr_missing.
Qed.

Lemma tooltip_names_first_line_reaches_last_witness :
  ∃ line,
    renderLink placeholderHost (layout (nodes hubAndTwins)) (nodes hubAndTwins) 0
               (Link.mk "agent" "s1" 0.8 0.1) = Some line
    ∧ Line.title line =
        "Connection: Active Agent â†’ first" +:+ LF
          +:+ "Strength: " +:+ toFixed0 placeholderHost (binary64 (0.8 * 100))
          +:+ "%" +:+ LF
          +:+ "Drift: " +:+ toFixed0 placeholderHost (binary64 (0.1 * 100)) +:+ "%"
    ∧ Position.mk (Line.x2 line) (Line.y2 line) = polar (INR 1 / INR 2 * 2 * PI)
    ∧ polar (INR 0 / INR 2 * 2 * PI) ≠ Position.mk (Line.x2 line) (Line.y2 line).
Proof.
  pose proof (renderLink_at placeholderHost (layout (nodes hubAndTwins))
                (nodes hubAndTwins) 0 (Link.mk "agent" "s1" 0.8 0.1)
                (Position.mk centerX centerY) (slot 1 2)
                (layout_agent _) eq_refl) as Hr.
  eexists. split; [exact Hr|].
  destruct (tooltip_names_first_line_reaches_last placeholderHost hubAndTwins
              0 (Link.mk "agent" "s1" 0.8 0.1) _
              1 1 (plainNode "s1" "first" suite None)
              (plainNode "s1" "second" suite None) Hr)
    as (Htitle & Hend & Hother & Hsource & _).
  - reflexivity.
  - reflexivity.
  - intros [|[|q]] m Hq Hm; [by injection Hm as <- | lia | lia].
  - discriminate.
  - discriminate.
  - reflexivity.
  - reflexivity.
  - intros [|[|k']] later Hlt Hk'; [lia | lia | discriminate].
  - split; [|split; [exact Hend | apply (Hother 0); [change (0 < 2); lia | lia]]].
    rewrite Htitle.
    rewrite (Hsource 0 (plainNode "agent" "Active Agent" agent (Some 0.85%R)));
      [reflexivity | reflexivity | reflexivity | intros q' m Hq'; lia | discriminate].
Defined.

(** X13: a score in (0, 1] is shown as a whole percentage between 0 and 100:
    the integer nearest to the binary64 product score × 100, the upper one
    on a tie; that product is within 2^-47 of the exact one. The label
    above the node shows the same text as the tooltip's score field. *)
Theorem score_percentage (host : Host) (v : R) (pos : Position) (size : R) :
  (0 < v <= 1)%R →
  ∃ z : Z,
    (0 ≤ z ≤ 100)%Z
    ∧ (IZR z - / 2 <= binary64 (v * 100) < IZR z + / 2)%R
    ∧ (Rabs (binary64 (v * 100) - v * 100) <= / 2 ^ 47)%R
    ∧ scoreField host (Some v) = pretty z +:+ "%"
    ∧ ∃ t, scoreLabel host (Some v) pos size = ChildText t
           ∧ Text.children t = pretty z +:+ "%".
Proof.
  intros [Hpos Hle].
  destruct (binary64_percent (v * 100)) as [Hrange Hnear]; [lra|].
  set (z := Int_part (binary64 (v * 100) + / 2)).
  destruct (base_Int_part (binary64 (v * 100) + / 2)) as [Hlo Hhi].
  fold z in Hlo, Hhi.
  assert (Hz : (IZR z - / 2 <= binary64 (v * 100) < IZR z + / 2)%R) by lra.
  assert (Hfix : toFixed0 host (binary64 (v * 100)) = pretty z).
  { apply toFixed0_small; [lra | done]. }
  exists z. split.
  { split.
    - assert (-1 < z)%Z; [|lia]. apply lt_IZR. lra.
    - assert (z < 101)%Z; [|lia]. apply lt_IZR. lra. }
  split; [done|]. split; [done|]. split.
  - rewrite scoreField_nonzero by lra. by rewrite Hfix.
  - unfold scoreLabel. rewrite decide_False by lra.
    eexists. split; [reflexivity|]. cbn. by rewrite Hfix.
Qed.

(** At the binary64 number nearest to 0.075 the product rounds to the tie
    7.5 and the field reads "8%". *)
Lemma score_percentage_witness :
  (0 < 5404319552844595 / 2 ^ 56 <= 1)%R
  ∧ binary64 (5404319552844595 / 2 ^ 56 * 100) = 7.5%R
  ∧ scoreField placeholderHost (Some (5404319552844595 / 2 ^ 56)%R) = "8%".
Proof.
  assert (Hv : (0 < 5404319552844595 / 2 ^ 56 <= 1)%R).
  { rewrite pow_IZR. set (d := (2 ^ Z.of_nat 56)%Z). vm_compute in d. subst d. lra. }
  split; [exact Hv|]. split; [apply binary64_product_at_0075|].
  destruct (score_percentage placeholderHost (5404319552844595 / 2 ^ 56)
              (Position.mk 400 300) 20 Hv)
    as (z & _ & Hnear & _ & Hfield & _).
  rewrite binary64_product_at_0075 in Hnear.
  assert (z = 8%Z) as ->.
  { assert (7 < z)%Z by (apply lt_IZR; lra).
    assert (z < 9)%Z by (apply lt_IZR; lra). lia. }
  exact Hfield.
Defined.

(** X14: on a payload whose scores, where present, lie in [0, 1], no circle
    is fully transparent: every fill opacity lies in (0, 1]. *)
Theorem circles_never_transparent (host : Host) (d : ReliabilityMapData)
    (g : Group.t) :
  (∀ node v, node ∈ nodes d → Node.score node = Some v → (0 <= v <= 1)%R) →
  g ∈ renderedGroups (scene host d) →
  (0 < Circle.opacity (Group.circle g) <= 1)%R.
Proof.
  intros Hrange (node & Hin & Hg)%renderedGroups_elem.
  unfold renderNode in Hg.
  destruct (layout (nodes d) !! Node.id node) as [pos|]; [|done].
  injection Hg as <-. cbn. unfold fillOpacity.
  destruct (Node.score node) as [v|] eqn:Hv; [|lra].
  pose proof (Hrange node v Hin Hv). destruct (decide (v = 0%R)); lra.
Qed.

Lemma circles_never_transparent_witness :
  ∃ g, g ∈ renderedGroups (scene placeholderHost testPayload)
       ∧ (0 < Circle.opacity (Group.circle g) <= 1)%R.
Proof.
  destruct testPayload_agent_group as (g & Hin & _).
  exists g. split; [exact Hin|].
  apply (circles_never_transparent placeholderHost testPayload g); [|exact Hin].
  intros node v Hnode Hv. cbn in Hnode.
  rewrite !elem_of_cons, elem_of_nil in Hnode.
  destruct Hnode as [->|[->|[]]]; cbn in Hv; injection Hv as <-; lra.
Defined.

(** ** The hook, once the fetch has settled *)

(** X15: whatever the outcome of the fetch, the hook ends with
    [loading = false]; it holds data exactly after a 2xx response whose
    body parsed to a payload, it holds no error exactly after a 2xx
    response whose body parsed, and it never holds both data and an
    error. *)
Theorem hook_settles (o : FetchOutcome) :
  loading (useReliabilityMapData (Some o)) = false
  ∧ (∀ d, data (useReliabilityMapData (Some o)) = Some d ↔
          ∃ status, ok status = true ∧ o = FetchResolves status (JsonResolves (Some d)))
  ∧ (error (useReliabilityMapData (Some o)) = None ↔
     ∃ status result, ok status = true ∧ o = FetchResolves status (JsonResolves result))
  ∧ (is_Some (data (useReliabilityMapData (Some o))) →
     error (useReliabilityMapData (Some o)) = None).
Proof.
  cbn [useReliabilityMapData]. unfold fetchData, tryBlock.
  destruct o as [reason|status [reason|result]]; [|destruct (ok status) eqn:Hok..];
    cbn; (split; [done|]); (split; [|split]).
  all: try (intros d'; split).
  all: try split.
  all: intros; repeat match goal with
                 | H : ∃ _, _ |- _ => destruct H
                 | H : _ ∧ _ |- _ => destruct H
                 | H : is_Some _ |- _ => destruct H
                 end; simplify_eq/=; try done; try congruence; eauto.
Qed.

(** X16: the component shows the Loading placeholder exactly while the fetch
    is pending, whatever the position map and however the fetch settles. *)
Theorem loading_iff_pending (host : Host) (settled : option FetchOutcome)
    (positions : PositionMap) :
  ReliabilityMap host (useReliabilityMapData settled) positions = ViewLoading
  ↔ settled = None.
Proof.
  destruct settled as [o|]; split; try done.
  unfold ReliabilityMap.
  assert (Hl : loading (useReliabilityMapData (Some o)) = false).
  { cbn [useReliabilityMapData]. unfold fetchData. done. }
  rewrite Hl.
  destruct (error (useReliabilityMapData (Some o))) as [e|];
    [destruct (decide (e = ""))|];
    by destruct (data (useReliabilityMapData (Some o))).
Qed.

(** X17: a 2xx response whose body cannot be read as JSON ends like a
    rejected fetch: the hook surfaces the reader's message ("Unknown error"
    for a reason that is not an [Error]), no data is kept, and the view
    shows that message when it is not empty. *)
Theorem unreadable_body_is_an_error (host : Host) (status : nat) (reason : Thrown) :
  ok status = true →
  surfaced reason ≠ "" →
  useReliabilityMapData (Some (FetchResolves status (JsonRejects reason)))
    = {| data := None; loading := false; error := Some (surfaced reason) |}
  ∧ mounted host (FetchResolves status (JsonRejects reason))
    = Returns (ViewError (surfaced reason)).
Proof.
  intros Hok Hmsg.
  assert (Hst : fetchData (FetchResolves status (JsonRejects reason)) initialState
                = {| data := None; loading := false; error := Some (surfaced reason) |}).
  { unfold fetchData, tryBlock. by rewrite Hok. }
  split; [exact Hst|].
  rewrite (mounted_failed host _ _ Hst). by rewrite decide_False.
Qed.

Lemma unreadable_body_is_an_error_witness :
  mounted placeholderHost
    (FetchResolves 200 (JsonRejects (ErrorInstance "Unexpected token < in JSON")))
  = Returns (ViewError "Unexpected token < in JSON").
Proof.
  apply (unreadable_body_is_an_error placeholderHost 200
           (ErrorInstance "Unexpected token < in JSON")); [reflexivity | discriminate].
Defined.

(** X18: a 2xx response whose body is [null] shows the Empty placeholder and
    leaves the position map as it was, whereas a payload without nodes and
    links shows the graph with nothing in it. *)
Theorem null_body_versus_empty_payload (host : Host) (status : nat)
    (positions : PositionMap) :
  ok status = true →
  mounted host (FetchResolves status (JsonResolves None)) = Returns ViewEmpty
  ∧ layoutEffect
      (data (useReliabilityMapData (Some (FetchResolves status (JsonResolves None)))))
      positions = Returns positions
  ∧ mounted host (FetchResolves status (JsonResolves (Some {| nodes := []; links := [] |})))
    = Returns (ViewReady [] []).
Proof.
  intros Hok. unfold mounted. cbn [useReliabilityMapData].
  rewrite !fetchData_resolved by done. done.
Qed.

Lemma null_body_versus_empty_payload_witness :
  mounted placeholderHost (FetchResolves 204 (JsonResolves None)) = Returns ViewEmpty
  ∧ mounted placeholderHost
      (FetchResolves 204 (JsonResolves (Some {| nodes := []; links := [] |})))
    = Returns (ViewReady [] []).
Proof.
  destruct (null_body_versus_empty_payload placeholderHost 204 ∅ eq_refl)
    as (Hnull & _ & Hempty).
  split; [exact Hnull | exact Hempty].
Defined.

(** X19: on a payload without nodes the map holds the key ["agent"] alone,
    so a link is drawn exactly when both its ends are ["agent"], as a line
    from the centre to the centre. *)
Theorem links_without_nodes (host : Host) (d : ReliabilityMapData)
    (index : nat) (link : Link) :
  nodes d = [] →
  links d !! index = Some link →
  ((∃ line, line ∈ renderedLines (scene host d) ∧ Line.key line = index)
   ↔ Link.source link = "agent" ∧ Link.target link = "agent")
  ∧ ∀ line, line ∈ renderedLines (scene host d) →
      Line.x1 line = 400%R ∧ Line.y1 line = 300%R
      ∧ Line.x2 line = 400%R ∧ Line.y2 line = 300%R.
Proof.
  intros Hnodes Hl.
  assert (Hres : ∀ id, resolves (nodes d) id ↔ id = "agent").
  { intros id. unfold resolves. rewrite Hnodes. split; [|by left].
    intros [->|(node & Hin & _)]; [done|]. by apply elem_of_nil in Hin. }
  split.
  - by rewrite (renderedLines_drawn host d index link Hl), !Hres.
  - intros line (link' & _ & Hr)%renderedLines_link.
    apply renderLink_Some in Hr as Hsome. destruct Hsome as (Hs & Ht & _).
    apply layout_is_Some, Hres in Hs. apply layout_is_Some, Hres in Ht.
    apply renderLink_ends in Hr as [Hs' Ht'].
    rewrite Hs, layout_agent in Hs'. rewrite Ht, layout_agent in Ht'.
    unfold centerX, centerY in *. by simplify_eq/=.
Qed.

Lemma links_without_nodes_witness :
  ¬ ∃ line, line ∈ renderedLines (scene placeholderHost ghostTarget)
            ∧ Line.key line = 0.
Proof.
  intros Hdrawn.
  apply (proj1 (links_without_nodes placeholderHost ghostTarget 0
                  (Link.mk "agent" "ghost" 0.8 0.1) eq_refl eq_refl)) in Hdrawn.
  destruct Hdrawn as [_ Ht]. discriminate Ht.
Defined.
